(** * analyze_guides.py: compliance checking of connection guides

    A shallow embedding of [src/analyze_guides.py] and the properties of
    its three functions: [analyze_mdx_file] (the compliance checker),
    [is_simple_connect_guide] (the classifier) and [main] (collection of
    the candidate files and the three report buckets).

    Python strings are sequences of Unicode code points; a code point is
    an [N] and a string a list of them.  The operations of [str] and of
    the [re] module that the script uses are defined first, then the
    local variables and exceptions of the checker as a small state and
    error monad, then the three functions, then the theorems. *)

From Stdlib Require Import List String Ascii NArith Bool Arith Lia Permutation.
From Stdlib Require Import Sorted DecimalString.
Import ListNotations.

Set Implicit Arguments.

(** ** Python strings *)

Module PyStr.

Definition char := N.
Definition str := list char.

(** The code points of a literal of the source. *)
Definition lit (s : string) : str := map N_of_ascii (list_ascii_of_string s).

(** The newline, code point 10. *)
Definition nl : str := [10%N].

Definition str_eqb (a b : str) : bool :=
  if list_eq_dec N.eq_dec a b then true else false.

(** [s.startswith(p)]. *)
Fixpoint startswith (s p : str) {struct p} : bool :=
  match p with
  | [] => true
  | c :: p' =>
      match s with
      | [] => false
      | d :: s' => N.eqb c d && startswith s' p'
      end
  end.

(** [p in s]: some suffix of [s] starts with [p]. *)
Fixpoint str_in (p s : str) : bool :=
  startswith s p ||
  match s with
  | [] => false
  | _ :: s' => str_in p s'
  end.

(** [s.count(sub)] counts occurrences that do not overlap, leftmost
    first: after an occurrence the scan resumes behind it, which
    [skip] records as the number of positions still to pass over. *)
Fixpoint count_from (sub s : str) (skip : nat) : nat :=
  match s with
  | [] => 0
  | _ :: s' =>
      match skip with
      | S k => count_from sub s' k
      | O =>
          if startswith s sub
          then S (count_from sub s' (List.length sub - 1))
          else count_from sub s' 0
      end
  end.

Definition count (s sub : str) : nat :=
  match sub with
  | [] => S (List.length s)
  | _ :: _ => count_from sub s 0
  end.

(** The number of positions of [s] at which [sub] occurs, overlapping
    or not: what "the number of occurrences of a substring" means. *)
Fixpoint occurrences (sub s : str) : nat :=
  (if startswith s sub then 1 else 0) +
  match s with
  | [] => 0
  | _ :: s' => occurrences sub s'
  end.

(** [any(p in s for p in ps)]. *)
Definition any_in (ps : list str) (s : str) : bool :=
  existsb (fun p => str_in p s) ps.

End PyStr.

Import PyStr.

(** ** The fragment of [re] the script uses

    The three patterns of the script are sequences of literal
    characters, character classes, greedy and lazy repetitions of one
    character class, and one capturing group.  [run] is the backtracking
    matcher of such a sequence at the start of a string; it returns the
    text of group 1. *)

Module Re.

Inductive item :=
| One (p : char -> bool)      (* one character of the class *)
| StarG (p : char -> bool)    (* [p*], greedy *)
| StarL (p : char -> bool)    (* [p*?], lazy *)
| Open                        (* [(] *)
| Close.                      (* [)] *)

Definition regex := list item.

(** The group being recorded, if it is open, and its text so far. *)
Definition group := (bool * str)%type.

Definition push (g : group) (c : char) : group :=
  if fst g then (true, snd g ++ [c]) else g.

Fixpoint run (r : regex) : str -> group -> option str :=
  match r with
  | [] => fun _ g => Some (snd g)
  | One p :: r' => fun s g =>
      match s with
      | c :: s' => if p c then run r' s' (push g c) else None
      | [] => None
      end
  | StarG p :: r' =>
      fix star (s : str) (g : group) {struct s} : option str :=
        match s with
        | c :: s' =>
            if p c then
              match star s' (push g c) with
              | Some v => Some v
              | None => run r' s g
              end
            else run r' s g
        | [] => run r' s g
        end
  | StarL p :: r' =>
      fix star (s : str) (g : group) {struct s} : option str :=
        match run r' s g with
        | Some v => Some v
        | None =>
            match s with
            | c :: s' => if p c then star s' (push g c) else None
            | [] => None
            end
        end
  | Open :: r' => fun s _ => run r' s (true, [])
  | Close :: r' => fun s g => run r' s (false, snd g)
  end.

(** [re.match(r, s).group(1)], [None] when there is no match. *)
Definition re_match (r : regex) (s : str) : option str := run r s (false, []).

(** [re.search(r, s).group(1)]: the match at the leftmost position
    that has one. *)
Fixpoint re_search (r : regex) (s : str) : option str :=
  match re_match r s with
  | Some v => Some v
  | None =>
      match s with
      | [] => None
      | _ :: s' => re_search r s'
      end
  end.

(** A literal, character by character. *)
Definition chars (s : str) : regex := map (fun c => One (N.eqb c)) s.

(** [.] under [re.DOTALL]. *)
Definition any_char : char -> bool := fun _ => true.

(** [\s] on a [str] pattern: the code points for which
    [str.isspace] holds. *)
Definition is_space (c : char) : bool :=
  ((9 <=? c) && (c <=? 13) || (28 <=? c) && (c <=? 32) ||
   (c =? 133) || (c =? 160) || (c =? 5760) ||
   (8192 <=? c) && (c <=? 8202) || (c =? 8232) || (c =? 8233) ||
   (c =? 8239) || (c =? 8287) || (c =? 12288))%N.

(** The class of the two quote characters, code points 34 and 39. *)
Definition is_quote (c : char) : bool := ((c =? 34) || (c =? 39))%N.

(** The complement of that class. *)
Definition not_quote (c : char) : bool := negb (is_quote c).

(** [r'^---\n(.*?)\n---'], used with [re.match] and [re.DOTALL]; [^]
    holds at the position where [re.match] starts. *)
Definition frontmatter_re : regex :=
  chars (lit "---" ++ nl) ++ [Open; StarL any_char; Close] ++
  chars (nl ++ lit "---").

(** The pattern of a quoted field: the key and a colon, [\s*], a
    quote, group 1 of one or more characters that are not quotes, and
    a quote; [key] is one of [title] and [description]. *)
Definition field_re (key : str) : regex :=
  chars (key ++ lit ":") ++
  [StarG is_space; One is_quote; Open; One not_quote; StarG not_quote; Close;
   One is_quote].

End Re.

Import Re.

(** ** Exceptions and local variables

    A run of the script ends with a value or with an uncaught
    exception.  Of the local variables of [analyze_mdx_file], [issues],
    [title_match] and [title] are used on a path other than the one that
    binds them; they are kept in a frame, where a variable is unbound
    until its first assignment and reading it unbound raises
    [UnboundLocalError]. *)

Inductive exn :=
| UnboundLocalError (name : string)
| ValueError.

Definition result (A : Type) : Type := (exn + A)%type.

Record locals := Locals {
  l_issues : list str;
  l_title_match : option (option str);
    (* unbound, or bound to [None], or bound to a match and its group 1 *)
  l_title : option str
}.

Definition M (A : Type) : Type := locals -> result (A * locals).

Definition ret {A} (a : A) : M A := fun l => inr (a, l).

Definition bind {A B} (m : M A) (k : A -> M B) : M B :=
  fun l =>
    match m l with
    | inl e => inl e
    | inr (a, l') => k a l'
    end.

Declare Scope py_scope.
Delimit Scope py_scope with py.
Notation "x <- m ;; k" := (bind m (fun x => k))
  (at level 61, m at next level, right associativity) : py_scope.
Notation "m ;; k" := (bind m (fun _ => k))
  (at level 61, right associativity) : py_scope.
Open Scope py_scope.

(** [issues.append(msg)]. *)
Definition append_issue (msg : str) : M unit :=
  fun l => inr (tt, Locals (l_issues l ++ [msg]) (l_title_match l) (l_title l)).

Definition assign_title_match (v : option str) : M unit :=
  fun l => inr (tt, Locals (l_issues l) (Some v) (l_title l)).

Definition assign_title (v : str) : M unit :=
  fun l => inr (tt, Locals (l_issues l) (l_title_match l) (Some v)).

Definition read_issues : M (list str) := fun l => inr (l_issues l, l).

Definition read_title_match : M (option str) :=
  fun l =>
    match l_title_match l with
    | Some v => inr (v, l)
    | None => inl (UnboundLocalError "title_match")
    end.

Definition read_title : M str :=
  fun l =>
    match l_title l with
    | Some v => inr (v, l)
    | None => inl (UnboundLocalError "title")
    end.

(** [if b: m]. *)
Definition when (b : bool) (m : M unit) : M unit := if b then m else ret tt.

(** The frame after [issues = []]. *)
Definition frame0 : locals := Locals [] None None.

(** The value a call returns, or the exception it raises. *)
Definition call {A} (m : M A) : result A :=
  match m frame0 with
  | inl e => inl e
  | inr (a, _) => inr a
  end.

(** ** The file system

    The script reaches the file system through [os.walk], which yields
    for the top directory and each directory below it the names of its
    files, and through [open(...).read()], which returns the text of a
    file or raises.  A path is the list of its names from the root of
    the file system; a directory that [os.walk] yields is given by its
    names below the top directory; the names of its subdirectories,
    which the script does not use, are left out.  [read] gives the
    text, or the text of the exception.  The file system does not
    change during a run: the classifier and the checker, which open
    the same file one after the other, get the same outcome. *)

Definition path := list str.

Record world := World {
  walk : list (path * list str);   (* directory below the top, its files *)
  read : path -> str + str
}.

(** ** The compliance checker *)

Definition dq : str := [34%N].

Definition import_line : str :=
  lit "import IntegrationFooter from " ++ dq ++
  lit "/snippets/integration-footer.mdx" ++ dq.

Definition desc_prefix : str := lit "Follow these steps to connect".

Definition expected_desc_of (title : str) : str :=
  lit "Follow these steps to connect " ++ title ++
  lit " via the StackOne Hub successfully.".

Definition incorrect_desc_issue (expected_desc desc : str) : str :=
  lit "Incorrect description format. Expected: '" ++ expected_desc ++
  lit "', Got: '" ++ desc ++ lit "'".

Definition missing_linking_issue (provider : str) : str :=
  lit "Missing 'Linking your " ++ provider ++ lit " Account' section".

(** Lines 18 to 39: the frontmatter, the title and the description. *)
Definition check_frontmatter (content : str) : M unit :=
  match re_match frontmatter_re content with
  | None => append_issue (lit "Missing frontmatter")
  | Some frontmatter =>
      let title_match := re_search (field_re (lit "title")) frontmatter in
      assign_title_match title_match ;;
      match title_match with
      | None => append_issue (lit "Missing or incorrectly formatted title")
      | Some g1 => assign_title g1
      end ;;
      match re_search (field_re (lit "description")) frontmatter with
      | None => append_issue (lit "Missing description")
      | Some desc =>
          title <- read_title ;;
          let expected_desc := expected_desc_of title in
          when (negb (str_eqb desc expected_desc) &&
                negb (startswith desc desc_prefix))
               (append_issue (incorrect_desc_issue expected_desc desc))
      end
  end.

(** Lines 57 to 62: the section that links the account. *)
Definition check_linking (content : str) : M unit :=
  title_match <- read_title_match ;;
  match title_match with
  | None => ret tt
  | Some provider =>
      let linking_pattern :=
        lit "## Linking your " ++ provider ++ lit " Account" in
      when (negb (str_in linking_pattern content) &&
            negb (str_in (lit "## Linking your Account") content) &&
            negb (str_in (lit "## Connecting to StackOne") content) &&
            negb (str_in (lit "## Connect with StackOne") content) &&
            negb (str_in (lit "## Connecting with StackOne") content))
           (append_issue (missing_linking_issue provider))
  end.

(** Lines 17 to 72: the checks on the text of a file. *)
Definition check_content (content : str) : M (list str) :=
  check_frontmatter content ;;
  when (negb (str_in import_line content))
       (append_issue (lit "Missing IntegrationFooter import")) ;;
  when (negb (str_in (lit "<Warning>") content))
       (append_issue (lit "Missing Warning section")) ;;
  when (negb (str_in (lit "<Steps>") content))
       (append_issue (lit "Missing Steps component")) ;;
  when (negb (str_in (lit "<IntegrationFooter />") content))
       (append_issue (lit "Missing IntegrationFooter component")) ;;
  check_linking content ;;
  when (negb (str_in (lit "## Available data") content))
       (append_issue (lit "Missing 'Available data' section")) ;;
  when (negb (str_in (lit "## Useful Links") content))
       (append_issue (lit "Missing 'Useful Links' section (recommended)")) ;;
  read_issues.

Definition analyze_mdx_file (w : world) (file_path : path) : result (list str) :=
  call
    match read w file_path with
    | inr e =>
        append_issue (lit "Could not read file: " ++ e) ;;
        read_issues
    | inl content => check_content content
    end.

(** ** The classifier *)

Definition simple_patterns : list str :=
  [lit "Click Connect Account";
   lit "In the modal, click the Connect button";
   lit "Click the Connect button"].

Definition auth_keywords : list str :=
  [lit "API Key"; lit "Client ID"; lit "Client Secret"; lit "OAuth";
   lit "Token"; lit "Credentials"].

Definition is_simple_connect_guide (w : world) (file_path : path) : bool :=
  match read w file_path with
  | inr _ => false
  | inl content =>
      if 3 <? count content (lit "<Step") then false
      else if any_in simple_patterns content then
        if negb (any_in auth_keywords content) then true else false
      else false
  end.

(** ** Paths *)

(** [s.endswith(p)]. *)
Definition endswith (s p : str) : bool := startswith (rev s) (rev p).

(** [a < b] on [str]: by code points, a proper prefix first. *)
Fixpoint str_ltb (a b : str) : bool :=
  match a, b with
  | _, [] => false
  | [], _ :: _ => true
  | c :: a', d :: b' => (c <? d)%N || (c =? d)%N && str_ltb a' b'
  end.

(** [a < b] on [Path]: the lists of names are compared. *)
Fixpoint path_ltb (a b : path) : bool :=
  match a, b with
  | _, [] => false
  | [], _ :: _ => true
  | x :: a', y :: b' => str_ltb x y || str_eqb x y && path_ltb a' b'
  end.

Fixpoint insert (x : path) (l : list path) : list path :=
  match l with
  | [] => [x]
  | y :: l' => if path_ltb x y then x :: l else y :: insert x l'
  end.

(** [sorted(l)]: stable, by [<]. *)
Definition sorted (l : list path) : list path :=
  fold_left (fun acc x => insert x acc) l [].

(** [p.relative_to(base)]: the names of [p] below [base]; [None] where
    Python raises [ValueError]. *)
Fixpoint relative_to (p base : path) {struct base} : option path :=
  match base with
  | [] => Some p
  | b :: base' =>
      match p with
      | [] => None
      | x :: p' => if str_eqb x b then relative_to p' base' else None
      end
  end.

(** [str(p)] for a relative path: the names joined by a slash. *)
Fixpoint str_of_path (p : path) : str :=
  match p with
  | [] => lit "."
  | [x] => x
  | x :: p' => x ++ lit "/" ++ str_of_path p'
  end.

(** ** The run *)

Definition repo_root : path :=
  [lit "home"; lit "runner"; lit "work"; lit "hub-docs"; lit "hub-docs"].

Definition base_path : path := repo_root ++ [lit "connection-guides"].

(** An entry of [non_compliant_files]. *)
Record file_info := FileInfo {
  fi_path : str;
  fi_issues : list str
}.

(** The three lists that [main] fills. *)
Record report := Report {
  simple_connect_guides : list str;
  compliant_files : list str;
  non_compliant_files : list file_info
}.

Definition is_candidate (file : str) : bool :=
  endswith file (lit ".mdx") && negb (str_eqb file (lit "introduction.mdx")).

(** Lines 105 to 109. *)
Definition mdx_files (w : world) : list path :=
  flat_map
    (fun '(root, files) =>
       map (fun file => base_path ++ root ++ [file])
           (filter is_candidate files))
    (walk w).

(** Lines 118 to 134: the body of the loop. *)
Definition classify (w : world) (r : report) (file_path : path) : result report :=
  match relative_to file_path repo_root with
  | None => inl ValueError
  | Some relative_path =>
      if is_simple_connect_guide w file_path then
        inr (Report (simple_connect_guides r ++ [str_of_path relative_path])
                    (compliant_files r) (non_compliant_files r))
      else
        match analyze_mdx_file w file_path with
        | inl e => inl e
        | inr [] =>
            inr (Report (simple_connect_guides r)
                        (compliant_files r ++ [str_of_path relative_path])
                        (non_compliant_files r))
        | inr issues =>
            inr (Report (simple_connect_guides r) (compliant_files r)
                        (non_compliant_files r ++
                         [FileInfo (str_of_path relative_path) issues]))
        end
  end.

(** Lines 117 to 134: the loop. *)
Fixpoint classify_all (w : world) (r : report) (files : list path) : result report :=
  match files with
  | [] => inr r
  | file_path :: files' =>
      match classify w r file_path with
      | inl e => inl e
      | inr r' => classify_all w r' files'
      end
  end.

(** Lines 101 to 134; the report that is printed is returned. *)
Definition main (w : world) : result report :=
  classify_all w (Report [] [] []) (sorted (mdx_files w)).

(** ** Notions the properties are stated with *)

(** [p] occurs in [s] as a substring. *)
Definition occurs_in (p s : str) : Prop := exists a b, s = a ++ p ++ b.

(** None of the first [k] characters of [s] is [c]. *)
Fixpoint head_free (c : char) (k : nat) (s : str) : Prop :=
  match k, s with
  | S k', x :: s' => x <> c /\ head_free c k' s'
  | _, _ => True
  end.

(** The shortest prefix of [s] that is followed by [stop]. *)
Fixpoint until (stop s : str) : option str :=
  if startswith s stop then Some []
  else
    match s with
    | [] => None
    | c :: s' => option_map (cons c) (until stop s')
    end.

(** The paths of a report, bucket after bucket. *)
Definition report_paths (r : report) : list str :=
  simple_connect_guides r ++ compliant_files r ++
  map fi_path (non_compliant_files r).

(** The path under which a candidate is reported. *)
Definition reported_as (file_path : path) : str :=
  match relative_to file_path repo_root with
  | Some relative_path => str_of_path relative_path
  | None => []
  end.

(** A text, line by line. *)
Definition unlines (ls : list str) : str :=
  List.concat (map (fun l => l ++ nl) ls).

(** The issue of a check that fails. *)
Definition issue_if (b : bool) (msg : str) : list str := if b then [msg] else [].

(** The issues of lines 41 to 70 once [title_match] is bound to [tm],
    in the order in which they are appended. *)
Definition later_issues (content : str) (tm : option str) : list str :=
  issue_if (negb (str_in import_line content))
           (lit "Missing IntegrationFooter import") ++
  issue_if (negb (str_in (lit "<Warning>") content))
           (lit "Missing Warning section") ++
  issue_if (negb (str_in (lit "<Steps>") content))
           (lit "Missing Steps component") ++
  issue_if (negb (str_in (lit "<IntegrationFooter />") content))
           (lit "Missing IntegrationFooter component") ++
  match tm with
  | None => []
  | Some provider =>
      issue_if
        (negb (str_in (lit "## Linking your " ++ provider ++ lit " Account")
                      content) &&
         negb (str_in (lit "## Linking your Account") content) &&
         negb (str_in (lit "## Connecting to StackOne") content) &&
         negb (str_in (lit "## Connect with StackOne") content) &&
         negb (str_in (lit "## Connecting with StackOne") content))
        (missing_linking_issue provider)
  end ++
  issue_if (negb (str_in (lit "## Available data") content))
           (lit "Missing 'Available data' section") ++
  issue_if (negb (str_in (lit "## Useful Links") content))
           (lit "Missing 'Useful Links' section (recommended)").

(** ** Sample guides *)

(** The directory that holds the one file [guide.mdx]. *)
Definition guide_path : path := base_path ++ [lit "guide.mdx"].

Definition readable (content : str) : world :=
  World [([], [lit "guide.mdx"])] (fun _ => inl content).

Definition unreadable (e : str) : world :=
  World [([], [lit "guide.mdx"])] (fun _ => inr e).

Definition acme_title_line : str := lit "title: " ++ dq ++ lit "Acme" ++ dq.

Definition acme_desc_line : str :=
  lit "description: " ++ dq ++ expected_desc_of (lit "Acme") ++ dq.

(** The text between the two markers of [acme_guide]. *)
Definition acme_frontmatter : str := acme_title_line ++ nl ++ acme_desc_line.

(** A guide with every required part and no section of useful links. *)
Definition acme_guide : str :=
  unlines
    [lit "---"; acme_title_line; acme_desc_line; lit "---";
     import_line;
     lit "<Warning>Admin rights are required.</Warning>";
     lit "## Linking your Acme Account";
     lit "<Steps><Step>Open the settings of Acme.</Step></Steps>";
     lit "## Available data";
     lit "<IntegrationFooter />"].

(** A guide that starts with a heading. *)
Definition no_frontmatter_guide : str :=
  unlines [lit "# Acme"; lit "## Linking your Acme Account"].

(** A frontmatter with a description and no title. *)
Definition untitled_guide : str :=
  unlines [lit "---"; lit "description: 'Connect Acme'"; lit "---";
           lit "## Available data"].

(** A description that does not follow the template. *)
Definition bad_desc_guide : str :=
  unlines [lit "---"; lit "title: 'Acme'"; lit "description: 'Connect Acme'";
           lit "---"; lit "## Available data"].

(** One wrapper and three steps, a short-guide phrase, no keyword. *)
Definition four_markers_guide : str :=
  unlines [lit "<Steps>";
           lit "<Step>Click Connect Account</Step>";
           lit "<Step>Pick the workspace</Step>";
           lit "<Step>Confirm</Step>";
           lit "</Steps>"].

(** A short guide. *)
Definition short_guide : str :=
  unlines [lit "<Steps>"; lit "<Step>Click Connect Account</Step>";
           lit "</Steps>"].

(** Short guides that name a token and an API key in lower case. *)
Definition token_guide : str :=
  unlines [lit "Click Connect Account"; lit "Paste the token of the workspace."].

Definition api_key_guide : str :=
  unlines [lit "Click the Connect button"; lit "Enter the API key."].

(** ** What the run prints

    Lines 111 and 136 to 159 write the report to the standard output;
    the text written is a string, to which every [print] adds its
    argument and a line break.  The two marks of lines 151 and 153 are
    the code points that the source file holds there. *)

(** [str(n)] for a length. *)
Definition str_of_nat (n : nat) : str :=
  lit (NilZero.string_of_uint (Nat.to_uint n)).

Definition print (s : str) : str := s ++ nl.

(** A [for] loop that prints. *)
Definition print_each {A} (f : A -> str) (l : list A) : str :=
  List.concat (map f l).

Definition file_mark : str := [63743; 252; 236; 209]%N.

Definition issue_mark : str := [8218; 249; 229]%N.

(** Line 111. *)
Definition print_found (total : nat) : str :=
  print (lit "Found " ++ str_of_nat total ++ lit " MDX files to analyze." ++ nl).

(** Lines 155 to 159. *)
Definition print_summary (total : nat) (r : report) : str :=
  print (nl ++ lit "=== SUMMARY ===") ++
  print (lit "Total files analyzed: " ++ str_of_nat total) ++
  print (lit "Simple connect guides (excluded): " ++
         str_of_nat (List.length (simple_connect_guides r))) ++
  print (lit "Compliant files: " ++
         str_of_nat (List.length (compliant_files r))) ++
  print (lit "Files needing updates: " ++
         str_of_nat (List.length (non_compliant_files r))).

(** Lines 137 to 153. *)
Definition print_results (r : report) : str :=
  print (lit "=== ANALYSIS RESULTS ===" ++ nl) ++
  print (lit "EXCLUDED (Simple Connect Guides): " ++
         str_of_nat (List.length (simple_connect_guides r))) ++
  print_each (fun file => print (lit "  - " ++ file)) (simple_connect_guides r) ++
  print [] ++
  print (lit "COMPLIANT FILES: " ++
         str_of_nat (List.length (compliant_files r))) ++
  print_each (fun file => print (lit "  - " ++ file)) (compliant_files r) ++
  print [] ++
  print (lit "NON-COMPLIANT FILES REQUIRING UPDATES: " ++
         str_of_nat (List.length (non_compliant_files r))) ++
  print_each
    (fun file_info =>
       print (nl ++ file_mark ++ lit " " ++ fi_path file_info) ++
       print_each (fun issue => print (lit "   " ++ issue_mark ++ lit " " ++ issue))
                  (fi_issues file_info))
    (non_compliant_files r).

(** The standard output of [main]: the line of line 111, and the
    report when the loop ends without an exception. *)
Definition main_stdout (w : world) : str :=
  print_found (List.length (mdx_files w)) ++
  match main w with
  | inl _ => []
  | inr r => print_results r ++ print_summary (List.length (mdx_files w)) r
  end.

(** ** The bucket of a candidate *)

Definition in_excluded (w : world) (file_path : path) : bool :=
  is_simple_connect_guide w file_path.

Definition in_compliant (w : world) (file_path : path) : bool :=
  negb (is_simple_connect_guide w file_path) &&
  match analyze_mdx_file w file_path with
  | inr [] => true
  | _ => false
  end.

Definition in_non_compliant (w : world) (file_path : path) : bool :=
  negb (is_simple_connect_guide w file_path) &&
  match analyze_mdx_file w file_path with
  | inr (_ :: _) => true
  | _ => false
  end.

(** The entry of a candidate that the checker returns issues for. *)
Definition entry_of (w : world) (file_path : path) : file_info :=
  FileInfo (reported_as file_path)
    match analyze_mdx_file w file_path with
    | inr issues => issues
    | inl _ => []
    end.

(** [not (b < a)] on paths. *)
Definition path_le (a b : path) : Prop := path_ltb b a = false.

(** ** The checker with its list as an object

    [issues = []] at line 8 makes a new list object, [issues.append]
    changes that object in place, and [return issues] hands the object
    itself to the caller.  To speak of one call after another, the list
    objects are kept in a heap, an object by its address, and a call
    takes the heap as it finds it and leaves it as it made it; an
    exception leaves the heap as it was when it was raised.  The checks
    are those of [check_content], line by line, with the local
    [issues] holding an address. *)

Definition heap := list (list str).

(** [[]]: a new list, at the next free address. *)
Definition alloc_list (h : heap) : nat * heap := (List.length h, h ++ [[]]).

(** [l.append(msg)] for the list at address [a]. *)
Fixpoint heap_append (a : nat) (msg : str) (h : heap) : heap :=
  match h with
  | [] => []
  | l :: h' =>
      match a with
      | O => (l ++ [msg]) :: h'
      | S a' => l :: heap_append a' msg h'
      end
  end.

Record hlocals := HLocals {
  hl_issues : option nat;
  hl_title_match : option (option str);
  hl_title : option str
}.

Definition HM (A : Type) : Type := heap -> hlocals -> heap * result (A * hlocals).

Definition hret {A} (a : A) : HM A := fun h f => (h, inr (a, f)).

Definition hbind {A B} (m : HM A) (k : A -> HM B) : HM B :=
  fun h f =>
    match m h f with
    | (h', inl e) => (h', inl e)
    | (h', inr (a, f')) => k a h' f'
    end.

Declare Scope heap_scope.
Delimit Scope heap_scope with heap.
Notation "x <- m ;; k" := (hbind m (fun x => k))
  (at level 61, m at next level, right associativity) : heap_scope.
Notation "m ;; k" := (hbind m (fun _ => k))
  (at level 61, right associativity) : heap_scope.

(** [issues = []]. *)
Definition new_issues : HM unit :=
  fun h f =>
    (snd (alloc_list h),
     inr (tt, HLocals (Some (fst (alloc_list h))) (hl_title_match f) (hl_title f))).

(** [issues.append(msg)]. *)
Definition happend_issue (msg : str) : HM unit :=
  fun h f =>
    match hl_issues f with
    | Some a => (heap_append a msg h, inr (tt, f))
    | None => (h, inl (UnboundLocalError "issues"))
    end.

Definition hassign_title_match (v : option str) : HM unit :=
  fun h f => (h, inr (tt, HLocals (hl_issues f) (Some v) (hl_title f))).

Definition hassign_title (v : str) : HM unit :=
  fun h f => (h, inr (tt, HLocals (hl_issues f) (hl_title_match f) (Some v))).

(** [issues], the address. *)
Definition hread_issues : HM nat :=
  fun h f =>
    match hl_issues f with
    | Some a => (h, inr (a, f))
    | None => (h, inl (UnboundLocalError "issues"))
    end.

Definition hread_title_match : HM (option str) :=
  fun h f =>
    match hl_title_match f with
    | Some v => (h, inr (v, f))
    | None => (h, inl (UnboundLocalError "title_match"))
    end.

Definition hread_title : HM str :=
  fun h f =>
    match hl_title f with
    | Some v => (h, inr (v, f))
    | None => (h, inl (UnboundLocalError "title"))
    end.

Definition hwhen (b : bool) (m : HM unit) : HM unit := if b then m else hret tt.

(** Lines 18 to 39. *)
Definition check_frontmatter_heap (content : str) : HM unit :=
  (match re_match frontmatter_re content with
   | None => happend_issue (lit "Missing frontmatter")
   | Some frontmatter =>
       let title_match := re_search (field_re (lit "title")) frontmatter in
       hassign_title_match title_match ;;
       match title_match with
       | None => happend_issue (lit "Missing or incorrectly formatted title")
       | Some g1 => hassign_title g1
       end ;;
       match re_search (field_re (lit "description")) frontmatter with
       | None => happend_issue (lit "Missing description")
       | Some desc =>
           title <- hread_title ;;
           let expected_desc := expected_desc_of title in
           hwhen (negb (str_eqb desc expected_desc) &&
                  negb (startswith desc desc_prefix))
                 (happend_issue (incorrect_desc_issue expected_desc desc))
       end
   end)%heap.

(** Lines 57 to 62. *)
Definition check_linking_heap (content : str) : HM unit :=
  (title_match <- hread_title_match ;;
   match title_match with
   | None => hret tt
   | Some provider =>
       let linking_pattern :=
         lit "## Linking your " ++ provider ++ lit " Account" in
       hwhen (negb (str_in linking_pattern content) &&
              negb (str_in (lit "## Linking your Account") content) &&
              negb (str_in (lit "## Connecting to StackOne") content) &&
              negb (str_in (lit "## Connect with StackOne") content) &&
              negb (str_in (lit "## Connecting with StackOne") content))
             (happend_issue (missing_linking_issue provider))
   end)%heap.

(** Lines 17 to 72. *)
Definition check_content_heap (content : str) : HM nat :=
  (check_frontmatter_heap content ;;
   hwhen (negb (str_in import_line content))
         (happend_issue (lit "Missing IntegrationFooter import")) ;;
   hwhen (negb (str_in (lit "<Warning>") content))
         (happend_issue (lit "Missing Warning section")) ;;
   hwhen (negb (str_in (lit "<Steps>") content))
         (happend_issue (lit "Missing Steps component")) ;;
   hwhen (negb (str_in (lit "<IntegrationFooter />") content))
         (happend_issue (lit "Missing IntegrationFooter component")) ;;
   check_linking_heap content ;;
   hwhen (negb (str_in (lit "## Available data") content))
         (happend_issue (lit "Missing 'Available data' section")) ;;
   hwhen (negb (str_in (lit "## Useful Links") content))
         (happend_issue (lit "Missing 'Useful Links' section (recommended)")) ;;
   hread_issues)%heap.

(** Lines 6 to 72: a call, on the heap it finds; it gives the heap it
    leaves, and the address of the list it returns or the exception. *)
Definition analyze_mdx_file_heap (w : world) (file_path : path) (h : heap)
  : heap * result nat :=
  match
    (new_issues ;;
     match read w file_path with
     | inr e =>
         happend_issue (lit "Could not read file: " ++ e) ;;
         hread_issues
     | inl content => check_content_heap content
     end)%heap h (HLocals None None None)
  with
  | (h', inl e) => (h', inl e)
  | (h', inr (a, _)) => (h', inr a)
  end.

(** The frame of the heap model that goes with a frame of [locals]:
    the list of issues is the object behind the heap [h0]. *)
Definition hframe_of (h0 : heap) (l : locals) : hlocals :=
  HLocals (Some (List.length h0)) (l_title_match l) (l_title l).

(** [hm] does on the heap what [m] does on the list of issues: the
    objects of [h0] stay as they are, the list behind them goes through
    the values that [l_issues] goes through, and the two end alike,
    with values that [rel] relates. *)
Definition simulates {A B} (rel : heap -> locals -> A -> B -> Prop)
    (m : M A) (hm : HM B) : Prop :=
  forall h0 l,
    match m l with
    | inr (a, l') =>
        exists b,
          hm (h0 ++ [l_issues l]) (hframe_of h0 l) =
            (h0 ++ [l_issues l'], inr (b, hframe_of h0 l')) /\
          rel h0 l' a b
    | inl e =>
        exists part,
          hm (h0 ++ [l_issues l]) (hframe_of h0 l) = (h0 ++ [part], inl e)
    end.

Definition same {A} : heap -> locals -> A -> A -> Prop := fun _ _ a b => a = b.

(** The value is the list of issues, and its address. *)
Definition list_at : heap -> locals -> list str -> nat -> Prop :=
  fun h0 l issues a => a = List.length h0 /\ issues = l_issues l.

(** ** A sample directory *)

(** [acme_guide] with the section it lacks. *)
Definition compliant_guide : str := acme_guide ++ unlines [lit "## Useful Links"].

(** A frontmatter without title and description. *)
Definition bare_guide : str :=
  unlines [lit "---"; lit "layout: guide"; lit "---"; lit "## Connecting to StackOne"].

(** A description that follows the template for another title. *)
Definition other_title_guide : str :=
  unlines [lit "---"; lit "title: 'Acme'";
           lit "description: 'Follow these steps to connect Globex'";
           lit "---"].

Definition path_eqb (a b : path) : bool :=
  if list_eq_dec (list_eq_dec N.eq_dec) a b then true else false.

(** The files that can be read, by path; the others raise. *)
Definition read_from (files : list (path * str)) (p : path) : str + str :=
  match find (fun e => path_eqb (fst e) p) files with
  | Some e => inl (snd e)
  | None => inr (lit "[Errno 13] Permission denied")
  end.

Definition sample_world : world :=
  World
    [([], [lit "introduction.mdx"; lit "zeta.mdx"; lit "acme.mdx"; lit "notes.txt"]);
     ([lit "crm"], [lit "short.mdx"; lit "locked.mdx"; lit "bare.mdx"])]
    (read_from
       [(base_path ++ [lit "zeta.mdx"], compliant_guide);
        (base_path ++ [lit "acme.mdx"], acme_guide);
        (base_path ++ [lit "crm"; lit "short.mdx"], short_guide);
        (base_path ++ [lit "crm"; lit "bare.mdx"], bare_guide)]).

(** The report of the run over [sample_world]. *)
Definition sample_report : report :=
  Report
    [lit "connection-guides/crm/short.mdx"]
    [lit "connection-guides/zeta.mdx"]
    [FileInfo (lit "connection-guides/acme.mdx")
       [lit "Missing 'Useful Links' section (recommended)"];
     FileInfo (lit "connection-guides/crm/bare.mdx")
       [lit "Missing or incorrectly formatted title";
        lit "Missing description";
        lit "Missing IntegrationFooter import";
        lit "Missing Warning section";
        lit "Missing Steps component";
        lit "Missing IntegrationFooter component";
        lit "Missing 'Available data' section";
        lit "Missing 'Useful Links' section (recommended)"];
     FileInfo (lit "connection-guides/crm/locked.mdx")
       [lit "Could not read file: [Errno 13] Permission denied"]].

(** * Strings *)

Section StringFacts.

Lemma startswith_spec (s p : str) :
  startswith s p = true <-> exists t, s = p ++ t.
Proof.
  revert s; induction p as [|c p IH]; intros s; simpl.
  - split; [exists s; reflexivity | reflexivity].
  - destruct s as [|d s].
    + split; [discriminate | intros [t Ht]; discriminate].
    + rewrite andb_true_iff, N.eqb_eq, IH. split.
      * intros [-> [t ->]]. exists t. reflexivity.
      * intros [t Ht]. injection Ht as -> ->. split; [reflexivity | now exists t].
Qed.

Lemma startswith_app (p t : str) : startswith (p ++ t) p = true.
Proof. apply startswith_spec. now exists t. Qed.

Lemma startswith_prefix (s p x : str) :
  startswith s (p ++ x) = true -> startswith s p = true.
Proof.
  rewrite !startswith_spec. intros [t ->]. exists (x ++ t).
  now rewrite app_assoc.
Qed.

Lemma str_in_spec (p s : str) : str_in p s = true <-> occurs_in p s.
Proof.
  unfold occurs_in. induction s as [|d s IH]; simpl.
  - rewrite orb_false_r, startswith_spec. split.
    + intros [t Ht]. exists [], t. exact Ht.
    + intros [a [b H]]. destruct a; [now exists b | discriminate].
  - rewrite orb_true_iff, IH, startswith_spec. split.
    + intros [[t Ht] | [a [b H]]].
      * exists [], t. exact Ht.
      * exists (d :: a), b. now rewrite H.
    + intros [a [b H]]. destruct a as [|x a].
      * left. now exists b.
      * right. injection H as _ H. now exists a, b.
Qed.

Lemma str_in_false (p s : str) : str_in p s = false <-> ~ occurs_in p s.
Proof.
  rewrite <- str_in_spec. destruct (str_in p s); split; intros H;
    try reflexivity; try discriminate.
  now elim H.
Qed.

Lemma str_in_app (a p b : str) : str_in p (a ++ p ++ b) = true.
Proof. apply str_in_spec. now exists a, b. Qed.

Lemma str_eqb_eq (a b : str) : str_eqb a b = true <-> a = b.
Proof.
  unfold str_eqb. destruct (list_eq_dec N.eq_dec a b); split; intros H;
    try assumption; try reflexivity; try discriminate; contradiction.
Qed.

Lemma str_eqb_neq (a b : str) : str_eqb a b = false <-> a <> b.
Proof.
  unfold str_eqb. destruct (list_eq_dec N.eq_dec a b); split; intros H;
    try assumption; try reflexivity; try discriminate; contradiction.
Qed.

Lemma any_in_spec (ps : list str) (s : str) :
  any_in ps s = true <-> exists p, In p ps /\ occurs_in p s.
Proof.
  unfold any_in. rewrite existsb_exists. split; intros [p [Hp H]];
    exists p; split; try assumption; now apply str_in_spec.
Qed.

Lemma any_in_false (ps : list str) (s : str) :
  any_in ps s = false <-> forall p, In p ps -> ~ occurs_in p s.
Proof.
  split.
  - intros H p Hp Ho. assert (E : any_in ps s = true)
      by (apply any_in_spec; now exists p).
    rewrite H in E. discriminate.
  - intros H. destruct (any_in ps s) eqn:E; [|reflexivity].
    apply any_in_spec in E. destruct E as [p [Hp Ho]]. now elim (H p Hp).
Qed.

End StringFacts.

(** * Patterns

    What the matcher does on the patterns of the script, in terms of
    the shape of the text. *)

Section PatternFacts.

Lemma run_StarG (p : char -> bool) (r : regex) (s : str) (g : group) :
  run (StarG p :: r) s g =
  match s with
  | c :: s' =>
      if p c then
        match run (StarG p :: r) s' (push g c) with
        | Some v => Some v
        | None => run r s g
        end
      else run r s g
  | [] => run r s g
  end.
Proof. destruct s; reflexivity. Qed.

Lemma run_StarL (p : char -> bool) (r : regex) (s : str) (g : group) :
  run (StarL p :: r) s g =
  match run r s g with
  | Some v => Some v
  | None =>
      match s with
      | c :: s' => if p c then run (StarL p :: r) s' (push g c) else None
      | [] => None
      end
  end.
Proof. destruct s; reflexivity. Qed.

Lemma push_all_closed (ws acc : str) :
  fold_left push ws (false, acc) = (false, acc).
Proof. induction ws as [|c ws IH]; [reflexivity | exact IH]. Qed.

Lemma push_all_open (ws acc : str) :
  fold_left push ws (true, acc) = (true, acc ++ ws).
Proof.
  revert acc. induction ws as [|c ws IH]; intros acc; cbn [fold_left].
  - now rewrite app_nil_r.
  - unfold push at 2. cbn [fst snd]. rewrite IH, <- app_assoc. reflexivity.
Qed.

Lemma run_chars (p : str) (r : regex) (s acc : str) :
  run (chars p ++ r) s (false, acc) =
  if startswith s p then run r (skipn (List.length p) s) (false, acc) else None.
Proof.
  revert s. induction p as [|c p IH]; intros s; [reflexivity|].
  destruct s as [|d s]; [reflexivity|].
  cbn [chars map app run startswith List.length skipn].
  destruct (N.eqb c d); [apply IH | reflexivity].
Qed.

Lemma run_StarG_sound (p : char -> bool) (r : regex) (s : str) (g : group) (v : str) :
  run (StarG p :: r) s g = Some v ->
  exists ws t,
    s = ws ++ t /\ forallb p ws = true /\ run r t (fold_left push ws g) = Some v.
Proof.
  revert g. induction s as [|c s IH]; intros g; rewrite run_StarG.
  - intros H. now exists [], [].
  - destruct (p c) eqn:Ep; [|intros H; now exists [], (c :: s)].
    destruct (run (StarG p :: r) s (push g c)) as [v'|] eqn:E.
    + intros Hv. injection Hv as ->. destruct (IH _ E) as [ws [t [-> [Hw Hr]]]].
      exists (c :: ws), t. cbn [forallb fold_left app]. rewrite Ep, Hw. auto.
    + intros H. now exists [], (c :: s).
Qed.

Lemma run_StarG_complete (p : char -> bool) (r : regex) (ws t : str) (g : group) (v : str) :
  forallb p ws = true ->
  run r t (fold_left push ws g) = Some v ->
  exists v', run (StarG p :: r) (ws ++ t) g = Some v'.
Proof.
  revert g. induction ws as [|c ws IH]; intros g Hw Hr; rewrite run_StarG.
  - cbn [fold_left app] in *. destruct t as [|c t]; [now exists v|].
    destruct (p c); [|now exists v].
    destruct (run (StarG p :: r) t (push g c)) as [v'|]; [now exists v'|].
    now exists v.
  - cbn [forallb fold_left app] in *. apply andb_true_iff in Hw.
    destruct Hw as [-> Hw]. destruct (IH _ Hw Hr) as [v' ->]. now exists v'.
Qed.

Lemma run_close_chars (stop s : str) (g : group) :
  run (Close :: chars stop) s g = if startswith s stop then Some (snd g) else None.
Proof.
  cbn [run]. rewrite <- (app_nil_r (chars stop)), run_chars.
  reflexivity.
Qed.

Lemma run_lazy_until (stop s acc : str) :
  run (StarL any_char :: Close :: chars stop) s (true, acc) =
  option_map (app acc) (until stop s).
Proof.
  revert acc. induction s as [|c s IH]; intros acc;
    rewrite run_StarL, run_close_chars; cbn [until snd].
  - destruct (startswith [] stop); cbn [option_map];
      [now rewrite app_nil_r | reflexivity].
  - destruct (startswith (c :: s) stop); cbn [option_map];
      [now rewrite app_nil_r|].
    unfold any_char at 1. unfold push. cbn [fst snd]. rewrite IH.
    destruct (until stop s); cbn [option_map]; [|reflexivity].
    now rewrite <- app_assoc.
Qed.

Lemma until_sound (stop s v : str) :
  until stop s = Some v -> exists rest, s = v ++ stop ++ rest.
Proof.
  revert v. induction s as [|c s IH]; intros v; cbn [until].
  - destruct (startswith [] stop) eqn:E; [|discriminate].
    intros H. injection H as <-. now apply startswith_spec.
  - destruct (startswith (c :: s) stop) eqn:E.
    + intros H. injection H as <-. now apply startswith_spec.
    + destruct (until stop s) as [v'|]; [|discriminate].
      intros H. injection H as <-. destruct (IH _ eq_refl) as [rest ->].
      now exists rest.
Qed.

Lemma until_here (stop s : str) :
  startswith s stop = true -> until stop s = Some [].
Proof. intros H. destruct s; cbn [until]; now rewrite H. Qed.

Lemma until_complete (stop v rest : str) :
  exists v', until stop (v ++ stop ++ rest) = Some v' /\
             List.length v' <= List.length v.
Proof.
  induction v as [|c v IH]; cbn [app].
  - exists []. split; [|reflexivity]. apply until_here, startswith_app.
  - cbn [until]. destruct (startswith (c :: v ++ stop ++ rest) stop).
    + exists []. split; [reflexivity | cbn; lia].
    + destruct IH as [v' [-> Hl]]. exists (c :: v'). split; [reflexivity|].
      cbn [List.length]. lia.
Qed.

(** The frontmatter is the text between the opening marker line and
    the first line break that a marker follows. *)
Lemma frontmatter_until (content : str) :
  re_match frontmatter_re content =
  if startswith content (lit "---" ++ nl)
  then until (nl ++ lit "---") (skipn 4 content)
  else None.
Proof.
  unfold re_match, frontmatter_re. rewrite run_chars.
  destruct (startswith content (lit "---" ++ nl)); [|reflexivity].
  change (List.length (lit "---" ++ nl)) with 4.
  change (run ([Open; StarL any_char; Close] ++ chars (nl ++ lit "---"))
              (skipn 4 content) (false, []))
    with (run (StarL any_char :: Close :: chars (nl ++ lit "---"))
              (skipn 4 content) (true, [])).
  rewrite run_lazy_until. now destruct (until _ _).
Qed.

Lemma frontmatter_sound (content frontmatter : str) :
  re_match frontmatter_re content = Some frontmatter ->
  exists rest,
    content = lit "---" ++ nl ++ frontmatter ++ nl ++ lit "---" ++ rest.
Proof.
  rewrite frontmatter_until.
  destruct (startswith content (lit "---" ++ nl)) eqn:E; [|discriminate].
  apply startswith_spec in E. destruct E as [t ->].
  change (skipn 4 ((lit "---" ++ nl) ++ t)) with t.
  intros H. apply until_sound in H. destruct H as [rest ->].
  exists rest. now rewrite <- !app_assoc.
Qed.

Lemma frontmatter_complete (frontmatter rest : str) :
  exists frontmatter',
    re_match frontmatter_re
      (lit "---" ++ nl ++ frontmatter ++ nl ++ lit "---" ++ rest)
    = Some frontmatter' /\
    List.length frontmatter' <= List.length frontmatter.
Proof.
  rewrite frontmatter_until.
  change (lit "---" ++ nl ++ frontmatter ++ nl ++ lit "---" ++ rest)
    with ((lit "---" ++ nl) ++ frontmatter ++ (nl ++ lit "---") ++ rest).
  rewrite startswith_app.
  change (skipn 4 ((lit "---" ++ nl) ++ frontmatter ++ (nl ++ lit "---") ++ rest))
    with (frontmatter ++ (nl ++ lit "---") ++ rest).
  apply until_complete.
Qed.

(** A text that does not start with the marker line has no
    frontmatter. *)
Lemma frontmatter_needs_marker (content : str) :
  startswith content (lit "---" ++ nl) = false ->
  re_match frontmatter_re content = None.
Proof. intros H. now rewrite frontmatter_until, H. Qed.

Lemma run_One (p : char -> bool) (r : regex) (s : str) (g : group) :
  run (One p :: r) s g =
  match s with
  | c :: s' => if p c then run r s' (push g c) else None
  | [] => None
  end.
Proof. reflexivity. Qed.

Lemma run_Open (r : regex) (s : str) (g : group) :
  run (Open :: r) s g = run r s (true, []).
Proof. reflexivity. Qed.

Lemma run_Close (r : regex) (s : str) (g : group) :
  run (Close :: r) s g = run r s (false, snd g).
Proof. reflexivity. Qed.

(** The value of a quoted field, where the key is found. *)
Lemma quoted_value_sound (t v : str) :
  run [StarG is_space; One is_quote; Open; One not_quote; StarG not_quote;
       Close; One is_quote] t (false, []) = Some v ->
  exists ws q1 q2 b,
    t = ws ++ q1 :: v ++ q2 :: b /\
    forallb is_space ws = true /\ is_quote q1 = true /\ is_quote q2 = true /\
    v <> [] /\ forallb not_quote v = true.
Proof.
  intros H. apply run_StarG_sound in H.
  destruct H as [ws [t1 [-> [Hws H]]]]. rewrite push_all_closed in H.
  rewrite run_One in H. destruct t1 as [|q1 t2]; [discriminate|].
  destruct (is_quote q1) eqn:Eq1; [|discriminate].
  rewrite run_Open, run_One in H. destruct t2 as [|c t3]; [discriminate|].
  destruct (not_quote c) eqn:Ec; [|discriminate].
  unfold push in H. cbn [fst snd app] in H.
  apply run_StarG_sound in H. destruct H as [vs [t4 [-> [Hvs H]]]].
  rewrite push_all_open, run_Close, run_One in H.
  destruct t4 as [|q2 b]; [discriminate|].
  destruct (is_quote q2) eqn:Eq2; [|discriminate].
  cbn in H. injection H as <-.
  exists ws, q1, q2, b. repeat split; try assumption; try discriminate.
  cbn [forallb]. now rewrite Ec, Hvs.
Qed.

Lemma quoted_value_complete (ws v b : str) (q1 q2 : char) :
  forallb is_space ws = true -> is_quote q1 = true -> is_quote q2 = true ->
  v <> [] -> forallb not_quote v = true ->
  exists v',
    run [StarG is_space; One is_quote; Open; One not_quote; StarG not_quote;
         Close; One is_quote] (ws ++ q1 :: v ++ q2 :: b) (false, []) = Some v'.
Proof.
  intros Hws Hq1 Hq2 Hv Hnq. destruct v as [|c vs]; [now elim Hv|].
  cbn [forallb] in Hnq. apply andb_true_iff in Hnq. destruct Hnq as [Hc Hvs].
  assert (Hin : exists v', run [StarG not_quote; Close; One is_quote]
                             (vs ++ q2 :: b) (true, [c]) = Some v').
  { apply run_StarG_complete with (v := c :: vs); [exact Hvs|].
    rewrite push_all_open, run_Close, run_One, Hq2. reflexivity. }
  destruct Hin as [v' Hin].
  apply run_StarG_complete with (v := v'); [exact Hws|].
  rewrite push_all_closed, run_One, Hq1, run_Open.
  cbn [app]. rewrite run_One, Hc. exact Hin.
Qed.

(** A field is found exactly in a text that holds the key and a colon,
    white space or none, and a value of one or more characters between
    two quotes; the value found has that shape. *)
Lemma field_sound (key s v : str) :
  re_search (field_re key) s = Some v ->
  exists a ws q1 q2 b,
    s = a ++ (key ++ lit ":") ++ ws ++ q1 :: v ++ q2 :: b /\
    forallb is_space ws = true /\ is_quote q1 = true /\ is_quote q2 = true /\
    v <> [] /\ forallb not_quote v = true.
Proof.
  induction s as [|d s IH]; cbn [re_search]; unfold re_match, field_re;
    rewrite run_chars.
  - destruct (startswith [] (key ++ lit ":")) eqn:E.
    + apply startswith_spec in E. destruct E as [t Ht].
      destruct (run _ _ _) eqn:R; [|discriminate].
      intros H. injection H as ->. apply quoted_value_sound in R.
      destruct R as [ws [q1 [q2 [b [Hs Hr]]]]].
      destruct (key ++ lit ":") as [|x k]; [|discriminate].
      cbn in Hs. destruct ws; discriminate.
    + discriminate.
  - destruct (startswith (d :: s) (key ++ lit ":")) eqn:E.
    + apply startswith_spec in E. destruct E as [t Ht].
      destruct (run _ (skipn _ (d :: s)) _) eqn:R.
      * intros H. injection H as ->. rewrite Ht in R.
        rewrite skipn_app, skipn_all, Nat.sub_diag in R. cbn [app skipn] in R.
        apply quoted_value_sound in R.
        destruct R as [ws [q1 [q2 [b [-> Hr]]]]].
        exists [], ws, q1, q2, b. split; [|exact Hr].
        cbn [app]. now rewrite Ht.
      * intros H. destruct (IH H) as [a [ws [q1 [q2 [b [-> Hr]]]]]].
        exists (d :: a), ws, q1, q2, b. now split.
    + intros H. destruct (IH H) as [a [ws [q1 [q2 [b [-> Hr]]]]]].
      exists (d :: a), ws, q1, q2, b. now split.
Qed.

Lemma field_complete (key a ws v b : str) (q1 q2 : char) :
  forallb is_space ws = true -> is_quote q1 = true -> is_quote q2 = true ->
  v <> [] -> forallb not_quote v = true ->
  exists v',
    re_search (field_re key)
      (a ++ (key ++ lit ":") ++ ws ++ q1 :: v ++ q2 :: b) = Some v'.
Proof.
  intros Hws Hq1 Hq2 Hv Hnq.
  destruct (quoted_value_complete ws b q1 q2 Hws Hq1 Hq2 Hv Hnq) as [v0 H0].
  assert (Hat : forall t, t = (key ++ lit ":") ++ ws ++ q1 :: v ++ q2 :: b ->
                          re_match (field_re key) t = Some v0).
  { intros t ->. unfold re_match, field_re. rewrite run_chars, startswith_app.
    rewrite skipn_app, skipn_all, Nat.sub_diag. exact H0. }
  induction a as [|d a IH].
  - exists v0. cbn [app].
    destruct ((key ++ lit ":") ++ ws ++ q1 :: v ++ q2 :: b) eqn:E;
      cbn [re_search]; now rewrite (Hat _ eq_refl).
  - cbn [app re_search].
    destruct (re_match (field_re key) (d :: a ++ _)) as [v1|];
      [now exists v1 | exact IH].
Qed.

End PatternFacts.

(** The patterns on small texts. *)

Example frontmatter_of_acme :
  re_match frontmatter_re acme_guide = Some acme_frontmatter.
Proof. reflexivity. Qed.

Example frontmatter_not_first :
  re_match frontmatter_re (nl ++ acme_guide) = None.
Proof. reflexivity. Qed.

Example frontmatter_unclosed :
  re_match frontmatter_re (lit "---" ++ nl ++ lit "title: 'Acme'" ++ nl) = None.
Proof. reflexivity. Qed.

Example title_of_acme :
  re_search (field_re (lit "title")) acme_frontmatter = Some (lit "Acme").
Proof. reflexivity. Qed.

Example description_of_acme :
  re_search (field_re (lit "description")) acme_frontmatter =
  Some (expected_desc_of (lit "Acme")).
Proof. reflexivity. Qed.

Example title_without_quotes :
  re_search (field_re (lit "title")) (lit "title: Acme") = None.
Proof. reflexivity. Qed.

Example title_empty :
  re_search (field_re (lit "title")) (lit "title: ''") = None.
Proof. reflexivity. Qed.

Example title_leftmost :
  re_search (field_re (lit "title"))
    (lit "title: Acme" ++ nl ++ lit "subtitle:   'CRM'") = Some (lit "CRM").
Proof. reflexivity. Qed.

Example count_without_overlap :
  count (lit "aaaa") (lit "aa") = 2 /\ occurrences (lit "aa") (lit "aaaa") = 3.
Proof. split; reflexivity. Qed.

(** * Counting

    [str.count] skips the occurrences that overlap an earlier one.  A
    pattern whose first character does not come back in it cannot
    overlap itself, and then [count] is the number of occurrences. *)

Section Counting.

Variable c : char.
Variable q : str.
Hypothesis fresh_head : ~ In c q.

Lemma head_free_start (s : str) :
  startswith s q = true -> head_free c (List.length q) s.
Proof.
  clear -fresh_head. revert s. induction q as [|x q' IH]; intros s H.
  - exact I.
  - destruct s as [|d s]; simpl in H; [discriminate|].
    apply andb_true_iff in H. destruct H as [Hx Hs].
    apply N.eqb_eq in Hx. subst d. simpl. split.
    + intros E. apply fresh_head. left. exact E.
    + apply IH; [|exact Hs]. intros Hin. apply fresh_head. right. exact Hin.
Qed.

Lemma count_from_occurrences (s : str) (k : nat) :
  head_free c k s -> count_from (c :: q) s k = occurrences (c :: q) s.
Proof.
  revert k. induction s as [|x s IH]; intros k Hk.
  - reflexivity.
  - destruct k as [|k].
    + cbn [count_from occurrences].
      destruct (startswith (x :: s) (c :: q)) eqn:E.
      * replace (List.length (c :: q) - 1) with (List.length q)
          by (simpl; lia).
        rewrite IH; [reflexivity|]. apply head_free_start.
        simpl in E. apply andb_true_iff in E. tauto.
      * rewrite IH; [reflexivity | exact I].
    + destruct Hk as [Hx Hk]. cbn [count_from occurrences].
      replace (startswith (x :: s) (c :: q)) with false.
      * rewrite IH; [reflexivity | exact Hk].
      * simpl. destruct (N.eqb_spec c x) as [->|_]; [now elim Hx | reflexivity].
Qed.

Lemma count_occurrences (s : str) : count s (c :: q) = occurrences (c :: q) s.
Proof. unfold count. apply count_from_occurrences. exact I. Qed.

End Counting.

(** Two patterns that extend [p] by different characters occur at
    different places, and [p] occurs at each of them. *)
Lemma occurrences_extensions (p x y : str) (a b : char) (s : str) :
  a <> b ->
  occurrences (p ++ a :: x) s + occurrences (p ++ b :: y) s <= occurrences p s.
Proof.
  intros Hab.
  assert (Hpos : forall t,
    (if startswith t (p ++ a :: x) then 1 else 0) +
    (if startswith t (p ++ b :: y) then 1 else 0) <=
    (if startswith t p then 1 else 0)).
  { intros t.
    destruct (startswith t (p ++ a :: x)) eqn:Ea;
      destruct (startswith t (p ++ b :: y)) eqn:Eb.
    - apply startswith_spec in Ea, Eb.
      destruct Ea as [u Hu], Eb as [v Hv]. rewrite Hu in Hv.
      rewrite <- !app_assoc in Hv. apply app_inv_head in Hv.
      injection Hv as Hv _. contradiction.
    - rewrite (startswith_prefix _ _ _ Ea). simpl. lia.
    - rewrite (startswith_prefix _ _ _ Eb). simpl. lia.
    - simpl. lia. }
  induction s as [|d s IH].
  - specialize (Hpos []). cbn [occurrences]. lia.
  - specialize (Hpos (d :: s)). cbn [occurrences]. lia.
Qed.

Lemma step_marker_count (content : str) :
  count content (lit "<Step") = occurrences (lit "<Step") content.
Proof.
  change (lit "<Step") with (60%N :: lit "Step").
  apply count_occurrences. cbv. intuition discriminate.
Qed.

Lemma step_marker_forms (content : str) :
  occurrences (lit "<Steps>") content + occurrences (lit "<Step>") content
  <= occurrences (lit "<Step") content.
Proof.
  change (lit "<Steps>") with (lit "<Step" ++ 115%N :: lit ">").
  change (lit "<Step>") with (lit "<Step" ++ 62%N :: []).
  apply occurrences_extensions. discriminate.
Qed.

(** * The classifier *)

Lemma is_simple_unfold (w : world) (file_path : path) (content : str) :
  read w file_path = inl content ->
  is_simple_connect_guide w file_path =
  (count content (lit "<Step") <=? 3) && any_in simple_patterns content &&
  negb (any_in auth_keywords content).
Proof.
  intros Hr. unfold is_simple_connect_guide. rewrite Hr.
  rewrite Nat.ltb_antisym.
  destruct (count content (lit "<Step") <=? 3),
    (any_in simple_patterns content), (any_in auth_keywords content);
    reflexivity.
Qed.

(** C4. On a file that can be read the classifier answers simple exactly
    when the step marker occurs at most three times, one of the three
    short-guide phrases occurs, and none of the six authentication
    keywords occurs. *)
Theorem is_simple_connect_guide_iff (w : world) (file_path : path) (content : str) :
  read w file_path = inl content ->
  is_simple_connect_guide w file_path = true <->
  occurrences (lit "<Step") content <= 3 /\
  (exists phrase,
     In phrase [lit "Click Connect Account";
                lit "In the modal, click the Connect button";
                lit "Click the Connect button"] /\
     occurs_in phrase content) /\
  (forall keyword,
     In keyword [lit "API Key"; lit "Client ID"; lit "Client Secret";
                 lit "OAuth"; lit "Token"; lit "Credentials"] ->
     ~ occurs_in keyword content).
Proof.
  intros Hr. rewrite (is_simple_unfold _ _ Hr).
  rewrite !andb_true_iff, negb_true_iff, Nat.leb_le, step_marker_count.
  fold simple_patterns auth_keywords.
  rewrite any_in_spec, any_in_false. tauto.
Qed.

Lemma is_simple_connect_guide_iff_witness :
  is_simple_connect_guide (readable short_guide) guide_path = true <->
  occurrences (lit "<Step") short_guide <= 3 /\
  (exists phrase,
     In phrase [lit "Click Connect Account";
                lit "In the modal, click the Connect button";
                lit "Click the Connect button"] /\
     occurs_in phrase short_guide) /\
  (forall keyword,
     In keyword [lit "API Key"; lit "Client ID"; lit "Client Secret";
                 lit "OAuth"; lit "Token"; lit "Credentials"] ->
     ~ occurs_in keyword short_guide).
Proof.
  apply (is_simple_connect_guide_iff (readable short_guide) guide_path).
  reflexivity.
Defined.

(** C9. The step-marker count of the classifier is the number of
    occurrences of the substring that opens a step tag, and the wrapper
    tag is one of them: a readable guide with one wrapper tag and three
    step tags has a count of at least four and is not simple, whatever
    phrases and keywords it holds. *)
Theorem steps_wrapper_is_counted (w : world) (file_path : path) (content : str) :
  read w file_path = inl content ->
  occurrences (lit "<Steps>") content = 1 ->
  occurrences (lit "<Step>") content = 3 ->
  count content (lit "<Step") = occurrences (lit "<Step") content /\
  4 <= count content (lit "<Step") /\
  is_simple_connect_guide w file_path = false.
Proof.
  intros Hr H1 H3.
  pose proof (step_marker_forms content) as Hle.
  pose proof (step_marker_count content) as Hc.
  split; [exact Hc|]. split; [lia|].
  rewrite (is_simple_unfold _ _ Hr).
  replace (count content (lit "<Step") <=? 3) with false; [reflexivity|].
  symmetry. apply Nat.leb_gt. lia.
Qed.

Lemma steps_wrapper_is_counted_witness :
  any_in simple_patterns four_markers_guide = true /\
  any_in auth_keywords four_markers_guide = false /\
  count four_markers_guide (lit "<Step") = 4 /\
  is_simple_connect_guide (readable four_markers_guide) guide_path = false.
Proof.
  split; [reflexivity|]. split; [reflexivity|]. split; [reflexivity|].
  apply (steps_wrapper_is_counted (readable four_markers_guide) guide_path
           (content := four_markers_guide)); reflexivity.
Defined.

(** C10. The keywords are matched as they are spelled: there are short
    guides that name a token and an API key in lower case, that hold a
    short-guide phrase and at most three step markers, and that the
    classifier answers simple for; with the listed spelling it does
    not. *)
Theorem auth_keywords_case_sensitive :
  (str_in (lit "Click Connect Account") token_guide = true /\
   count token_guide (lit "<Step") <= 3 /\
   str_in (lit "token") token_guide = true /\
   is_simple_connect_guide (readable token_guide) guide_path = true) /\
  (str_in (lit "Click the Connect button") api_key_guide = true /\
   count api_key_guide (lit "<Step") <= 3 /\
   str_in (lit "API key") api_key_guide = true /\
   is_simple_connect_guide (readable api_key_guide) guide_path = true) /\
  is_simple_connect_guide
    (readable (unlines [lit "Click Connect Account";
                        lit "Paste the Token of the workspace."]))
    guide_path = false /\
  is_simple_connect_guide
    (readable (unlines [lit "Click the Connect button";
                        lit "Enter the API Key."]))
    guide_path = false.
Proof.
  repeat split; try reflexivity; vm_compute; lia.
Qed.

(** * The checks, one after the other *)

Lemma when_append (b : bool) (msg : str) (l : locals) :
  when b (append_issue msg) l =
  inr (tt, Locals (l_issues l ++ issue_if b msg) (l_title_match l) (l_title l)).
Proof.
  destruct b; unfold when, append_issue, ret, issue_if.
  - reflexivity.
  - rewrite app_nil_r. now destruct l.
Qed.

Lemma bind_when_append {A} (b : bool) (msg : str) (k : unit -> M A) (l : locals) :
  bind (when b (append_issue msg)) k l =
  k tt (Locals (l_issues l ++ issue_if b msg) (l_title_match l) (l_title l)).
Proof. unfold bind. now rewrite when_append. Qed.

(** The checks behind the frontmatter read [title_match], and append to
    the issues the frontmatter left. *)
Lemma check_content_unfold (content : str) :
  call (check_content content) =
  match check_frontmatter content frame0 with
  | inl e => inl e
  | inr (_, l) =>
      match l_title_match l with
      | None => inl (UnboundLocalError "title_match")
      | Some tm => inr (l_issues l ++ later_issues content tm)
      end
  end.
Proof.
  unfold call, check_content. unfold bind at 1.
  destruct (check_frontmatter content frame0) as [e|[[] l]]; [reflexivity|].
  rewrite !bind_when_append. cbn [l_issues l_title_match l_title].
  unfold bind at 1. unfold check_linking. unfold bind at 1.
  unfold read_title_match at 1. cbn [l_issues l_title_match l_title].
  destruct (l_title_match l) as [tm|]; [|reflexivity].
  unfold later_issues. destruct tm as [provider|].
  - rewrite when_append. rewrite !bind_when_append.
    cbn [l_issues l_title_match l_title]. unfold read_issues.
    cbn [l_issues]. rewrite <- !app_assoc. reflexivity.
  - unfold ret. rewrite !bind_when_append.
    cbn [l_issues l_title_match l_title]. unfold read_issues.
    cbn [l_issues]. rewrite <- !app_assoc. reflexivity.
Qed.

Lemma analyze_readable (w : world) (file_path : path) (content : str) :
  read w file_path = inl content ->
  analyze_mdx_file w file_path = call (check_content content).
Proof. intros Hr. unfold analyze_mdx_file. now rewrite Hr. Qed.

Lemma check_frontmatter_missing (content : str) :
  re_match frontmatter_re content = None ->
  check_frontmatter content frame0 =
  inr (tt, Locals [lit "Missing frontmatter"] None None).
Proof. intros H. unfold check_frontmatter. now rewrite H. Qed.

Lemma check_frontmatter_titled (content frontmatter title desc : str) :
  re_match frontmatter_re content = Some frontmatter ->
  re_search (field_re (lit "title")) frontmatter = Some title ->
  re_search (field_re (lit "description")) frontmatter = Some desc ->
  check_frontmatter content frame0 =
  inr (tt, Locals
             (issue_if (negb (str_eqb desc (expected_desc_of title)) &&
                        negb (startswith desc desc_prefix))
                       (incorrect_desc_issue (expected_desc_of title) desc))
             (Some (Some title)) (Some title)).
Proof.
  intros Hf Ht Hd. unfold check_frontmatter. rewrite Hf, Ht, Hd.
  unfold bind, assign_title_match, assign_title, read_title.
  cbn [l_issues l_title_match l_title frame0].
  rewrite when_append. reflexivity.
Qed.

Lemma check_frontmatter_untitled (content frontmatter desc : str) :
  re_match frontmatter_re content = Some frontmatter ->
  re_search (field_re (lit "title")) frontmatter = None ->
  re_search (field_re (lit "description")) frontmatter = Some desc ->
  check_frontmatter content frame0 = inl (UnboundLocalError "title").
Proof.
  intros Hf Ht Hd. unfold check_frontmatter. rewrite Hf, Ht, Hd. reflexivity.
Qed.

(** Without frontmatter the checker raises: line 58 reads
    [title_match], which only the frontmatter branch binds. *)
Lemma analyze_without_frontmatter (w : world) (file_path : path) (content : str) :
  read w file_path = inl content ->
  re_match frontmatter_re content = None ->
  analyze_mdx_file w file_path = inl (UnboundLocalError "title_match").
Proof.
  intros Hr Hf. rewrite (analyze_readable _ _ Hr), check_content_unfold.
  now rewrite (check_frontmatter_missing _ Hf).
Qed.

(** With a description and no title the checker raises: line 37 reads
    [title], which only a matched title binds. *)
Lemma analyze_untitled (w : world) (file_path : path)
    (content frontmatter desc : str) :
  read w file_path = inl content ->
  re_match frontmatter_re content = Some frontmatter ->
  re_search (field_re (lit "title")) frontmatter = None ->
  re_search (field_re (lit "description")) frontmatter = Some desc ->
  analyze_mdx_file w file_path = inl (UnboundLocalError "title").
Proof.
  intros Hr Hf Ht Hd. rewrite (analyze_readable _ _ Hr), check_content_unfold.
  now rewrite (check_frontmatter_untitled _ Hf Ht Hd).
Qed.

(** * Paths and the loop of [main] *)

Lemma str_eqb_refl (a : str) : str_eqb a a = true.
Proof. now apply str_eqb_eq. Qed.

Lemma relative_to_app (base p : path) : relative_to (base ++ p) base = Some p.
Proof.
  induction base as [|b base IH]; simpl; [reflexivity|].
  now rewrite str_eqb_refl.
Qed.

(** A candidate lies below the top directory, and is reported by its
    path from the root of the repository. *)
Lemma candidate_below_top (w : world) (file_path : path) :
  In file_path (mdx_files w) ->
  exists root files file,
    In (root, files) (walk w) /\ In file files /\
    is_candidate file = true /\
    file_path = base_path ++ root ++ [file].
Proof.
  unfold mdx_files. rewrite in_flat_map. intros [[root files] [Hw Hin]].
  apply in_map_iff in Hin. destruct Hin as [file [<- Hf]].
  apply filter_In in Hf. destruct Hf as [Hf Hc].
  now exists root, files, file.
Qed.

Lemma candidate_relative (w : world) (file_path : path) :
  In file_path (mdx_files w) ->
  exists relative_path,
    relative_to file_path repo_root = Some relative_path /\
    relative_path <> [].
Proof.
  intros H. apply candidate_below_top in H.
  destruct H as [root [files [file [_ [_ [_ ->]]]]]].
  exists (lit "connection-guides" :: root ++ [file]). split; [|discriminate].
  unfold base_path. rewrite <- app_assoc. apply relative_to_app.
Qed.

Lemma insert_perm (x : path) (l : list path) : Permutation (insert x l) (x :: l).
Proof.
  induction l as [|y l IH]; simpl; [reflexivity|].
  destruct (path_ltb x y); [reflexivity|].
  rewrite IH. apply perm_swap.
Qed.

Lemma sorted_perm (l : list path) : Permutation (sorted l) l.
Proof.
  unfold sorted.
  assert (H : forall acc, Permutation (fold_left (fun a x => insert x a) l acc)
                                      (acc ++ l)).
  { induction l as [|x l IH]; intros acc; simpl.
    - now rewrite app_nil_r.
    - rewrite IH, insert_perm. apply Permutation_middle. }
  apply (H []).
Qed.

Lemma sorted_in (l : list path) (p : path) : In p (sorted l) <-> In p l.
Proof.
  split; apply Permutation_in; [|symmetry]; apply sorted_perm.
Qed.

(** One round of the loop puts the file in one bucket and leaves the
    others as they are. *)
Lemma classify_paths (w : world) (r r' : report) (file_path : path) :
  classify w r file_path = inr r' ->
  Permutation (report_paths r') (reported_as file_path :: report_paths r).
Proof.
  unfold classify, reported_as, report_paths.
  destruct (relative_to file_path repo_root) as [rel|]; [|discriminate].
  destruct (is_simple_connect_guide w file_path).
  - intros E. injection E as <-. cbn [simple_connect_guides compliant_files
      non_compliant_files]. rewrite <- app_assoc. symmetry.
    apply Permutation_middle.
  - destruct (analyze_mdx_file w file_path) as [e|[|i issues]]; [discriminate| |];
      intros E; injection E as <-;
      cbn [simple_connect_guides compliant_files non_compliant_files].
    + rewrite <- !app_assoc. cbn [app]. symmetry.
      rewrite !app_assoc. apply Permutation_middle.
    + rewrite map_app. cbn [map fi_path]. rewrite !app_assoc.
      rewrite <- Permutation_cons_append. reflexivity.
Qed.

Lemma classify_all_paths (w : world) (files : list path) (r r' : report) :
  classify_all w r files = inr r' ->
  Permutation (report_paths r') (report_paths r ++ map reported_as files).
Proof.
  revert r. induction files as [|f files IH]; intros r; simpl.
  - intros E. injection E as <-. now rewrite app_nil_r.
  - destruct (classify w r f) as [e|r1] eqn:E1; [discriminate|].
    intros E. rewrite (IH _ E), (classify_paths _ _ _ E1).
    cbn [app]. apply Permutation_middle.
Qed.

(** A run that ends without an exception reports every candidate once:
    the three buckets together are the candidates. *)
Lemma main_partition (w : world) (r : report) :
  main w = inr r ->
  Permutation (report_paths r) (map reported_as (mdx_files w)).
Proof.
  unfold main. intros E. rewrite (classify_all_paths _ _ _ E).
  cbn [report_paths simple_connect_guides compliant_files non_compliant_files
       map app].
  apply Permutation_map, sorted_perm.
Qed.

(** And the buckets share no path when no two candidates are reported
    under the same one. *)
Lemma main_disjoint (w : world) (r : report) :
  main w = inr r ->
  NoDup (map reported_as (mdx_files w)) ->
  NoDup (simple_connect_guides r ++ compliant_files r ++
         map fi_path (non_compliant_files r)).
Proof.
  intros E Hn. apply main_partition in E.
  apply (Permutation_NoDup (Permutation_sym E) Hn).
Qed.

(** The run ends without an exception when the checker returns on
    every candidate that is not simple. *)
Lemma classify_all_returns (w : world) (files : list path) (r : report) :
  (forall f, In f files -> In f (mdx_files w)) ->
  (forall f, In f files -> is_simple_connect_guide w f = false ->
             exists issues, analyze_mdx_file w f = inr issues) ->
  exists r', classify_all w r files = inr r'.
Proof.
  revert r. induction files as [|f files IH]; intros r Hc Ha; simpl.
  - now exists r.
  - destruct (candidate_relative w f (Hc f (or_introl eq_refl)))
      as [rel [Hrel _]].
    unfold classify. rewrite Hrel.
    destruct (is_simple_connect_guide w f) eqn:Es.
    + apply IH; intros g Hg; [apply Hc | apply Ha]; now right.
    + destruct (Ha f (or_introl eq_refl) Es) as [issues ->].
      destruct issues; apply IH; intros g Hg; try (apply Hc; now right);
        apply Ha; now right.
Qed.

Lemma main_returns (w : world) :
  (forall f, In f (mdx_files w) -> is_simple_connect_guide w f = false ->
             exists issues, analyze_mdx_file w f = inr issues) ->
  exists r, main w = inr r.
Proof.
  intros Ha. unfold main. apply classify_all_returns.
  - intros f Hf. now apply sorted_in.
  - intros f Hf. apply Ha. now apply sorted_in.
Qed.

(** * The checker and the run *)

(** C1. A guide without frontmatter does not get an issue list: the
    checker appends the issue of the missing frontmatter and then
    raises at line 58, where [title_match] has not been bound.  Here
    on a guide that starts with a heading. *)
Theorem missing_frontmatter_raises :
  re_match frontmatter_re no_frontmatter_guide = None /\
  analyze_mdx_file (readable no_frontmatter_guide) guide_path =
  inl (UnboundLocalError "title_match").
Proof.
  split; [reflexivity|].
  now apply (analyze_without_frontmatter _ _ (content := no_frontmatter_guide)).
Qed.

(** C2. A frontmatter with a quoted description and no title does not
    get an issue list either: the checker appends the issue of the
    title and then raises at line 37, where [title] has not been
    bound. *)
Theorem missing_title_raises :
  (exists frontmatter desc,
     re_match frontmatter_re untitled_guide = Some frontmatter /\
     re_search (field_re (lit "title")) frontmatter = None /\
     re_search (field_re (lit "description")) frontmatter = Some desc) /\
  analyze_mdx_file (readable untitled_guide) guide_path =
  inl (UnboundLocalError "title").
Proof.
  split; [|reflexivity].
  exists (lit "description: 'Connect Acme'"), (lit "Connect Acme").
  repeat split; reflexivity.
Qed.

(** C3. A run over a directory whose one candidate has no frontmatter
    ends with the exception of the checker, and no candidate reaches a
    bucket. *)
Theorem run_aborts_without_frontmatter :
  mdx_files (readable no_frontmatter_guide) = [guide_path] /\
  is_simple_connect_guide (readable no_frontmatter_guide) guide_path = false /\
  main (readable no_frontmatter_guide) = inl (UnboundLocalError "title_match").
Proof. repeat split; reflexivity. Qed.



(** C6. When the frontmatter gives a title and a quoted description
    that is neither the description of the template for that title
    nor starts with the prefix of the template, the checker returns
    an issue that holds the expected description, written out with the
    title in it, and the actual one as they are. *)
Theorem description_issue_names_both
    (w : world) (file_path : path) (content frontmatter title desc : str) :
  read w file_path = inl content ->
  re_match frontmatter_re content = Some frontmatter ->
  re_search (field_re (lit "title")) frontmatter = Some title ->
  re_search (field_re (lit "description")) frontmatter = Some desc ->
  desc <> lit "Follow these steps to connect " ++ title ++
          lit " via the StackOne Hub successfully." ->
  startswith desc (lit "Follow these steps to connect") = false ->
  exists issue issues,
    analyze_mdx_file w file_path = inr (issue :: issues) /\
    issue = lit "Incorrect description format. Expected: '" ++
            (lit "Follow these steps to connect " ++ title ++
             lit " via the StackOne Hub successfully.") ++
            lit "', Got: '" ++ desc ++ lit "'" /\
    occurs_in (lit "Follow these steps to connect " ++ title ++
               lit " via the StackOne Hub successfully.") issue /\
    occurs_in desc issue.
Proof.
  intros Hr Hf Ht Hd Hne Hp.
  exists (incorrect_desc_issue (expected_desc_of title) desc),
         (later_issues content (Some title)).
  split; [|split; [reflexivity|split]].
  - rewrite (analyze_readable _ _ Hr), check_content_unfold.
    rewrite (check_frontmatter_titled _ Hf Ht Hd).
    cbn [l_title_match l_issues].
    apply str_eqb_neq in Hne. fold (expected_desc_of title) in Hne.
    fold desc_prefix in Hp. rewrite Hne, Hp. reflexivity.
  - unfold incorrect_desc_issue.
    exists (lit "Incorrect description format. Expected: '"),
           (lit "', Got: '" ++ desc ++ lit "'"). reflexivity.
  - unfold incorrect_desc_issue.
    exists (lit "Incorrect description format. Expected: '" ++
            expected_desc_of title ++ lit "', Got: '"), (lit "'").
    now rewrite <- !app_assoc.
Qed.

Lemma description_issue_names_both_witness :
  exists issue issues,
    analyze_mdx_file (readable bad_desc_guide) guide_path = inr (issue :: issues) /\
    issue = lit "Incorrect description format. Expected: '" ++
            (lit "Follow these steps to connect " ++ lit "Acme" ++
             lit " via the StackOne Hub successfully.") ++
            lit "', Got: '" ++ lit "Connect Acme" ++ lit "'" /\
    occurs_in (lit "Follow these steps to connect " ++ lit "Acme" ++
               lit " via the StackOne Hub successfully.") issue /\
    occurs_in (lit "Connect Acme") issue.
Proof.
  apply (description_issue_names_both (readable bad_desc_guide) guide_path
           (content := bad_desc_guide)
           (frontmatter := lit "title: 'Acme'" ++ nl ++
                           lit "description: 'Connect Acme'"));
    try reflexivity.
  vm_compute. discriminate.
Defined.

(** C7. For a candidate that cannot be read the checker returns the
    one issue that tells the failure of the read, and the loop puts
    the file with that issue among the non-compliant ones and goes on
    with the files that remain. *)
Theorem unreadable_file_non_compliant (w : world) (file_path : path) (e : str) :
  In file_path (mdx_files w) ->
  read w file_path = inr e ->
  analyze_mdx_file w file_path = inr [lit "Could not read file: " ++ e] /\
  forall r rest,
    classify_all w r (file_path :: rest) =
    classify_all w
      (Report (simple_connect_guides r) (compliant_files r)
         (non_compliant_files r ++
          [FileInfo (reported_as file_path) [lit "Could not read file: " ++ e]]))
      rest.
Proof.
  intros Hc Hr.
  assert (E : analyze_mdx_file w file_path =
              inr [lit "Could not read file: " ++ e]).
  { unfold analyze_mdx_file. rewrite Hr. reflexivity. }
  split; [exact E|]. intros r rest.
  destruct (candidate_relative _ _ Hc) as [rel [Hrel _]].
  cbn [classify_all]. unfold classify, reported_as, is_simple_connect_guide.
  rewrite Hrel, Hr, E. reflexivity.
Qed.

Lemma unreadable_file_non_compliant_witness :
  analyze_mdx_file (unreadable (lit "[Errno 13] Permission denied")) guide_path =
    inr [lit "Could not read file: [Errno 13] Permission denied"] /\
  main (unreadable (lit "[Errno 13] Permission denied")) =
    inr (Report [] []
           [FileInfo (lit "connection-guides/guide.mdx")
              [lit "Could not read file: [Errno 13] Permission denied"]]).
Proof.
  destruct (unreadable_file_non_compliant
              (unreadable (lit "[Errno 13] Permission denied")) guide_path
              (e := lit "[Errno 13] Permission denied"))
    as [H1 H2].
  - left. reflexivity.
  - reflexivity.
  - split; [exact H1|]. exact (H2 (Report [] [] []) []).
Defined.

Lemma heap_append_last (h0 : heap) (l : list str) (msg : str) :
  heap_append (List.length h0) msg (h0 ++ [l]) = h0 ++ [l ++ [msg]].
Proof.
  induction h0 as [|x h0 IH]; cbn [List.length heap_append app];
    [reflexivity | now rewrite IH].
Qed.

Section Simulation.

Lemma sim_ret {A} (a : A) : simulates same (ret a) (hret a).
Proof. intros h0 l. cbn. exists a. now split. Qed.

Lemma sim_bind {A B C} (rel : heap -> locals -> B -> C -> Prop)
    (m : M A) (hm : HM A) (k : A -> M B) (hk : A -> HM C) :
  simulates same m hm ->
  (forall a, simulates rel (k a) (hk a)) ->
  simulates rel (bind m k) (hbind hm hk).
Proof.
  intros Hm Hk h0 l. unfold bind, hbind. specialize (Hm h0 l).
  destruct (m l) as [e|[a l']].
  - destruct Hm as [part ->]. now exists part.
  - destruct Hm as [b [-> <-]]. apply Hk.
Qed.

Lemma sim_append (msg : str) :
  simulates same (append_issue msg) (happend_issue msg).
Proof.
  intros h0 l. unfold append_issue, happend_issue. cbn [hframe_of hl_issues].
  rewrite heap_append_last. exists tt. now split.
Qed.

Lemma sim_when (b : bool) (m : M unit) (hm : HM unit) :
  simulates same m hm -> simulates same (when b m) (hwhen b hm).
Proof. intros H. destruct b; [exact H | apply sim_ret]. Qed.

Lemma sim_assign_title_match (v : option str) :
  simulates same (assign_title_match v) (hassign_title_match v).
Proof. intros h0 l. cbn. exists tt. now split. Qed.

Lemma sim_assign_title (v : str) :
  simulates same (assign_title v) (hassign_title v).
Proof. intros h0 l. cbn. exists tt. now split. Qed.

Lemma sim_read_title : simulates same read_title hread_title.
Proof.
  intros h0 l. unfold read_title, hread_title. cbn [hframe_of hl_title].
  destruct (l_title l) as [v|]; [exists v; now split | now exists (l_issues l)].
Qed.

Lemma sim_read_title_match : simulates same read_title_match hread_title_match.
Proof.
  intros h0 l. unfold read_title_match, hread_title_match.
  cbn [hframe_of hl_title_match].
  destruct (l_title_match l) as [v|];
    [exists v; now split | now exists (l_issues l)].
Qed.

Lemma sim_read_issues : simulates list_at read_issues hread_issues.
Proof.
  intros h0 l. cbn. exists (List.length h0). split; [reflexivity | now split].
Qed.

Lemma sim_check_frontmatter (content : str) :
  simulates same (check_frontmatter content) (check_frontmatter_heap content).
Proof.
  unfold check_frontmatter, check_frontmatter_heap.
  destruct (re_match frontmatter_re content) as [fm|]; [|apply sim_append].
  apply sim_bind; [apply sim_assign_title_match | intros _].
  apply sim_bind.
  - destruct (re_search (field_re (lit "title")) fm);
      [apply sim_assign_title | apply sim_append].
  - intros _. destruct (re_search (field_re (lit "description")) fm);
      [|apply sim_append].
    apply sim_bind; [apply sim_read_title | intros title].
    apply sim_when, sim_append.
Qed.

Lemma sim_check_linking (content : str) :
  simulates same (check_linking content) (check_linking_heap content).
Proof.
  unfold check_linking, check_linking_heap.
  apply sim_bind; [apply sim_read_title_match | intros [provider|]].
  - apply sim_when, sim_append.
  - apply sim_ret.
Qed.

Lemma sim_check_content (content : str) :
  simulates list_at (check_content content) (check_content_heap content).
Proof.
  unfold check_content, check_content_heap.
  apply sim_bind; [apply sim_check_frontmatter | intros _].
  do 4 (apply sim_bind; [apply sim_when, sim_append | intros _]).
  apply sim_bind; [apply sim_check_linking | intros _].
  do 2 (apply sim_bind; [apply sim_when, sim_append | intros _]).
  apply sim_read_issues.
Qed.

Lemma sim_analyze (w : world) (file_path : path) :
  simulates list_at
    match read w file_path with
    | inr e => (append_issue (lit "Could not read file: " ++ e) ;; read_issues)%py
    | inl content => check_content content
    end
    match read w file_path with
    | inr e =>
        (happend_issue (lit "Could not read file: " ++ e) ;; hread_issues)%heap
    | inl content => check_content_heap content
    end.
Proof.
  destruct (read w file_path) as [content|e]; [apply sim_check_content|].
  apply sim_bind; [apply sim_append | intros _; apply sim_read_issues].
Qed.

End Simulation.

(** A call leaves the objects it finds as they are and puts one new
    list behind them: the list of issues that it returns by its address,
    or what was gathered when it raised. *)
Lemma analyze_heap_call (w : world) (file_path : path) (h : heap) :
  match analyze_mdx_file w file_path with
  | inr issues =>
      analyze_mdx_file_heap w file_path h = (h ++ [issues], inr (List.length h))
  | inl e =>
      exists part, analyze_mdx_file_heap w file_path h = (h ++ [part], inl e)
  end.
Proof.
  pose proof (sim_analyze w file_path h frame0) as H.
  unfold analyze_mdx_file, call, analyze_mdx_file_heap.
  match goal with
  | |- context [hbind new_issues (fun _ => ?X) h ?f0] =>
      change (hbind new_issues (fun _ => X) h f0)
        with (X (h ++ [l_issues frame0]) (hframe_of h frame0))
  end.
  revert H.
  match goal with
  | |- match ?t with _ => _ end -> _ => destruct t as [e|[issues l']]
  end.
  - intros [part ->]. now exists part.
  - intros [b [-> [-> ->]]]. reflexivity.
Qed.



(** * Further properties: the patterns *)

Lemma until_without_stop (stop s v : str) :
  stop <> [] -> until stop s = Some v -> ~ occurs_in stop v.
Proof.
  intros Hne. revert v. induction s as [|c s IH]; intros v; cbn [until].
  - destruct (startswith [] stop) eqn:E; [|discriminate].
    intros H. injection H as <-. intros [a [b Hab]].
    destruct a; [|discriminate]. destruct stop; [now elim Hne | discriminate].
  - destruct (startswith (c :: s) stop) eqn:E.
    + intros H. injection H as <-. intros [a [b Hab]].
      destruct a; [|discriminate]. destruct stop; [now elim Hne | discriminate].
    + destruct (until stop s) as [v'|] eqn:Eu; [|discriminate].
      intros H. injection H as <-. intros [a [b Hab]].
      destruct a as [|x a].
      * destruct (until_sound _ _ Eu) as [rest Hs].
        assert (Hst : startswith (c :: s) stop = true).
        { apply startswith_spec. exists (b ++ stop ++ rest).
          rewrite Hs, app_comm_cons, Hab. cbn [app].
          now rewrite <- !app_assoc. }
        rewrite Hst in E. discriminate.
      * injection Hab as _ Hab. apply (IH v' eq_refl). now exists a, b.
Qed.

(** X1. A text has frontmatter exactly when it starts with a marker
    line and a line break followed by a marker comes later. *)
Theorem frontmatter_found_iff (content : str) :
  (exists frontmatter, re_match frontmatter_re content = Some frontmatter) <->
  (exists body rest,
     content = lit "---" ++ nl ++ body ++ nl ++ lit "---" ++ rest).
Proof.
  split.
  - intros [fm H]. destruct (frontmatter_sound _ H) as [rest Hr].
    now exists fm, rest.
  - intros [body [rest ->]].
    destruct (frontmatter_complete body rest) as [fm [H _]]. now exists fm.
Qed.

(** X2. The frontmatter that is found stands between the opening marker
    line and the first line break that a marker follows: it holds no
    line break followed by a marker, and no other text between the
    opening line and such a line break is shorter. *)
Theorem frontmatter_ends_at_first_marker (content frontmatter : str) :
  re_match frontmatter_re content = Some frontmatter ->
  (exists rest,
     content = lit "---" ++ nl ++ frontmatter ++ nl ++ lit "---" ++ rest) /\
  ~ occurs_in (nl ++ lit "---") frontmatter /\
  (forall body rest,
     content = lit "---" ++ nl ++ body ++ nl ++ lit "---" ++ rest ->
     List.length frontmatter <= List.length body).
Proof.
  intros H. split; [now apply frontmatter_sound|]. split.
  - rewrite frontmatter_until in H.
    destruct (startswith content (lit "---" ++ nl)); [|discriminate].
    eapply until_without_stop; [|exact H]. discriminate.
  - intros body rest Hc.
    destruct (frontmatter_complete body rest) as [fm [Hfm Hl]].
    rewrite <- Hc, H in Hfm. injection Hfm as <-. exact Hl.
Qed.

Lemma frontmatter_ends_at_first_marker_witness :
  (exists rest,
     compliant_guide =
     lit "---" ++ nl ++ acme_frontmatter ++ nl ++ lit "---" ++ rest) /\
  ~ occurs_in (nl ++ lit "---") acme_frontmatter /\
  (forall body rest,
     compliant_guide = lit "---" ++ nl ++ body ++ nl ++ lit "---" ++ rest ->
     List.length acme_frontmatter <= List.length body).
Proof.
  apply (frontmatter_ends_at_first_marker compliant_guide). reflexivity.
Defined.

(** X3. A quoted field is found in a text exactly when the text holds
    the key and a colon, then white space or none, then one or more
    characters other than quotes between two quotes, which need not be
    the same quote; what stands before the key does not matter. *)
Theorem field_found_iff (key s : str) :
  (exists v, re_search (field_re key) s = Some v) <->
  (exists a ws q1 v q2 b,
     s = a ++ (key ++ lit ":") ++ ws ++ q1 :: v ++ q2 :: b /\
     forallb is_space ws = true /\ is_quote q1 = true /\ is_quote q2 = true /\
     v <> [] /\ forallb not_quote v = true).
Proof.
  split.
  - intros [v H]. destruct (field_sound _ _ H) as [a [ws [q1 [q2 [b Hs]]]]].
    now exists a, ws, q1, v, q2, b.
  - intros [a [ws [q1 [v [q2 [b [-> [Hws [Hq1 [Hq2 [Hv Hnq]]]]]]]]]]].
    apply field_complete; assumption.
Qed.

(** X4. The value that is found for a quoted field is not empty, holds
    no quote, and is in the text between two quotes. *)
Theorem field_value_quoted (key s v : str) :
  re_search (field_re key) s = Some v ->
  v <> [] /\ Forall (fun c => c <> 34%N /\ c <> 39%N) v /\
  exists q1 q2,
    (q1 = 34%N \/ q1 = 39%N) /\ (q2 = 34%N \/ q2 = 39%N) /\
    occurs_in (q1 :: v ++ [q2]) s.
Proof.
  intros H. destruct (field_sound _ _ H)
    as [a [ws [q1 [q2 [b [-> [_ [Hq1 [Hq2 [Hv Hnq]]]]]]]]]].
  assert (Hq : forall q, is_quote q = true -> q = 34%N \/ q = 39%N).
  { intros q E. unfold is_quote in E. apply orb_true_iff in E.
    rewrite !N.eqb_eq in E. exact E. }
  split; [exact Hv|]. split.
  - apply Forall_forall. intros c Hc.
    rewrite forallb_forall in Hnq. specialize (Hnq c Hc).
    unfold not_quote, is_quote in Hnq. apply negb_true_iff in Hnq.
    apply orb_false_iff in Hnq. rewrite !N.eqb_neq in Hnq. exact Hnq.
  - exists q1, q2. split; [now apply Hq|]. split; [now apply Hq|].
    exists (a ++ (key ++ lit ":") ++ ws), b.
    rewrite <- !app_assoc. cbn [app]. now rewrite <- app_assoc.
Qed.

Lemma field_value_quoted_witness :
  lit "Acme" <> [] /\ Forall (fun c => c <> 34%N /\ c <> 39%N) (lit "Acme") /\
  exists q1 q2,
    (q1 = 34%N \/ q1 = 39%N) /\ (q2 = 34%N \/ q2 = 39%N) /\
    occurs_in (q1 :: lit "Acme" ++ [q2]) acme_frontmatter.
Proof.
  apply (field_value_quoted (lit "title") acme_frontmatter). reflexivity.
Defined.

(** * Further properties: the checker *)

Lemma check_frontmatter_no_desc (content frontmatter title : str) :
  re_match frontmatter_re content = Some frontmatter ->
  re_search (field_re (lit "title")) frontmatter = Some title ->
  re_search (field_re (lit "description")) frontmatter = None ->
  check_frontmatter content frame0 =
  inr (tt, Locals [lit "Missing description"] (Some (Some title)) (Some title)).
Proof.
  intros Hf Ht Hd. unfold check_frontmatter. now rewrite Hf, Ht, Hd.
Qed.

Lemma check_frontmatter_bare (content frontmatter : str) :
  re_match frontmatter_re content = Some frontmatter ->
  re_search (field_re (lit "title")) frontmatter = None ->
  re_search (field_re (lit "description")) frontmatter = None ->
  check_frontmatter content frame0 =
  inr (tt, Locals [lit "Missing or incorrectly formatted title";
                   lit "Missing description"] (Some None) None).
Proof.
  intros Hf Ht Hd. unfold check_frontmatter. now rewrite Hf, Ht, Hd.
Qed.

(** The description of the template starts with the prefix, so the
    comparison with it never decides the check of line 38. *)
Lemma desc_test (title desc : str) :
  negb (str_eqb desc (expected_desc_of title)) &&
  negb (startswith desc desc_prefix) =
  negb (startswith desc desc_prefix).
Proof.
  destruct (str_eqb desc (expected_desc_of title)) eqn:E; [|reflexivity].
  apply str_eqb_eq in E. subst desc.
  replace (startswith (expected_desc_of title) desc_prefix) with true;
    [reflexivity|].
  symmetry. apply startswith_spec.
  exists (lit " " ++ title ++ lit " via the StackOne Hub successfully.").
  reflexivity.
Qed.

(** The five ways the checker ends on a text. *)
Lemma analyze_cases (w : world) (file_path : path) (content : str) :
  read w file_path = inl content ->
  (re_match frontmatter_re content = None /\
   analyze_mdx_file w file_path = inl (UnboundLocalError "title_match")) \/
  (exists frontmatter,
     re_match frontmatter_re content = Some frontmatter /\
     ((exists desc,
         re_search (field_re (lit "title")) frontmatter = None /\
         re_search (field_re (lit "description")) frontmatter = Some desc /\
         analyze_mdx_file w file_path = inl (UnboundLocalError "title")) \/
      (re_search (field_re (lit "title")) frontmatter = None /\
       re_search (field_re (lit "description")) frontmatter = None /\
       analyze_mdx_file w file_path =
       inr ([lit "Missing or incorrectly formatted title";
             lit "Missing description"] ++ later_issues content None)) \/
      (exists title,
         re_search (field_re (lit "title")) frontmatter = Some title /\
         re_search (field_re (lit "description")) frontmatter = None /\
         analyze_mdx_file w file_path =
         inr ([lit "Missing description"] ++ later_issues content (Some title))) \/
      (exists title desc,
         re_search (field_re (lit "title")) frontmatter = Some title /\
         re_search (field_re (lit "description")) frontmatter = Some desc /\
         analyze_mdx_file w file_path =
         inr (issue_if (negb (startswith desc desc_prefix))
                       (incorrect_desc_issue (expected_desc_of title) desc) ++
              later_issues content (Some title))))).
Proof.
  intros Hr. rewrite (analyze_readable _ _ Hr), check_content_unfold.
  destruct (re_match frontmatter_re content) as [fm|] eqn:Hf.
  - right. exists fm. split; [reflexivity|].
    destruct (re_search (field_re (lit "title")) fm) as [t|] eqn:Ht;
      destruct (re_search (field_re (lit "description")) fm) as [d|] eqn:Hd.
    + right. right. right. exists t, d.
      rewrite (check_frontmatter_titled _ Hf Ht Hd), desc_test. auto.
    + right. right. left. exists t.
      rewrite (check_frontmatter_no_desc _ Hf Ht Hd). auto.
    + left. exists d. rewrite (check_frontmatter_untitled _ Hf Ht Hd). auto.
    + right. left. rewrite (check_frontmatter_bare _ Hf Ht Hd). auto.
  - left. rewrite (check_frontmatter_missing _ Hf). auto.
Qed.

Lemma in_issue_if (i msg : str) (b : bool) :
  In i (issue_if b msg) <-> b = true /\ i = msg.
Proof.
  destruct b; cbn; split.
  - intros [H|[]]. now split.
  - intros [_ ->]. now left.
  - intros [].
  - intros [H _]. discriminate.
Qed.

(** X5. On a text the checker returns an issue list exactly when the
    text has frontmatter in which a title is found or no description
    is found; on every other text it raises. *)
Theorem checker_returns_iff (w : world) (file_path : path) (content : str) :
  read w file_path = inl content ->
  (exists issues, analyze_mdx_file w file_path = inr issues) <->
  (exists frontmatter,
     re_match frontmatter_re content = Some frontmatter /\
     (re_search (field_re (lit "title")) frontmatter <> None \/
      re_search (field_re (lit "description")) frontmatter = None)).
Proof.
  intros Hr. destruct (analyze_cases _ _ Hr) as
    [[Hf E] | [fm [Hf [[d [Ht [Hd E]]] | [[Ht [Hd E]] | [[t [Ht [Hd E]]] |
     [t [d [Ht [Hd E]]]]]]]]]]; rewrite E, Hf; split.
  - intros [issues H]. discriminate.
  - intros [fm [H _]]. discriminate.
  - intros [issues H]. discriminate.
  - intros [fm' [H [Hn | Hn]]]; injection H as <-.
    + now elim Hn.
    + rewrite Hd in Hn. discriminate.
  - intros _. exists fm. auto.
  - intros _. eexists. reflexivity.
  - intros _. exists fm. auto.
  - intros _. eexists. reflexivity.
  - intros _. exists fm. split; [reflexivity|]. left. rewrite Ht. discriminate.
  - intros _. eexists. reflexivity.
Qed.

Lemma checker_returns_iff_witness :
  (exists issues, analyze_mdx_file (readable bare_guide) guide_path = inr issues) <->
  (exists frontmatter,
     re_match frontmatter_re bare_guide = Some frontmatter /\
     (re_search (field_re (lit "title")) frontmatter <> None \/
      re_search (field_re (lit "description")) frontmatter = None)).
Proof.
  apply (checker_returns_iff (readable bare_guide) guide_path). reflexivity.
Defined.

Lemma issue_if_nil (b : bool) (msg : str) : issue_if b msg = [] <-> b = false.
Proof. destruct b; cbn; split; intros H; try reflexivity; discriminate. Qed.

Lemma in_later_issues (i content : str) (tm : option str) :
  In i (later_issues content tm) <->
  (str_in import_line content = false /\
   i = lit "Missing IntegrationFooter import") \/
  (str_in (lit "<Warning>") content = false /\
   i = lit "Missing Warning section") \/
  (str_in (lit "<Steps>") content = false /\
   i = lit "Missing Steps component") \/
  (str_in (lit "<IntegrationFooter />") content = false /\
   i = lit "Missing IntegrationFooter component") \/
  (exists provider,
     tm = Some provider /\
     (str_in (lit "## Linking your " ++ provider ++ lit " Account") content = false /\
      str_in (lit "## Linking your Account") content = false /\
      str_in (lit "## Connecting to StackOne") content = false /\
      str_in (lit "## Connect with StackOne") content = false /\
      str_in (lit "## Connecting with StackOne") content = false) /\
     i = missing_linking_issue provider) \/
  (str_in (lit "## Available data") content = false /\
   i = lit "Missing 'Available data' section") \/
  (str_in (lit "## Useful Links") content = false /\
   i = lit "Missing 'Useful Links' section (recommended)").
Proof.
  unfold later_issues. rewrite !in_app_iff, !in_issue_if, !negb_true_iff.
  assert (Hl :
    In i match tm with
         | None => []
         | Some provider =>
             issue_if
               (negb (str_in (lit "## Linking your " ++ provider ++ lit " Account")
                             content) &&
                negb (str_in (lit "## Linking your Account") content) &&
                negb (str_in (lit "## Connecting to StackOne") content) &&
                negb (str_in (lit "## Connect with StackOne") content) &&
                negb (str_in (lit "## Connecting with StackOne") content))
               (missing_linking_issue provider)
         end <->
    exists provider,
      tm = Some provider /\
      (str_in (lit "## Linking your " ++ provider ++ lit " Account") content = false /\
       str_in (lit "## Linking your Account") content = false /\
       str_in (lit "## Connecting to StackOne") content = false /\
       str_in (lit "## Connect with StackOne") content = false /\
       str_in (lit "## Connecting with StackOne") content = false) /\
      i = missing_linking_issue provider).
  { destruct tm as [provider|].
    - rewrite in_issue_if, !andb_true_iff, !negb_true_iff. split.
      + intros [H ->]. exists provider. tauto.
      + intros [p [E [H ->]]]. injection E as <-. tauto.
    - split; [intros [] | intros [p [E _]]; discriminate]. }
  rewrite Hl. tauto.
Qed.

Ltac differ H := exfalso; vm_compute in H; discriminate H.



(** X7. The description is judged by its prefix alone: when a title
    and a description are found, the checker returns, and it reports
    the format of the description exactly when the description does not
    start with the prefix of the template.  The title plays no part: a
    description that names another title is accepted. *)
Theorem description_judged_by_prefix
    (w : world) (file_path : path) (content frontmatter title desc : str) :
  read w file_path = inl content ->
  re_match frontmatter_re content = Some frontmatter ->
  re_search (field_re (lit "title")) frontmatter = Some title ->
  re_search (field_re (lit "description")) frontmatter = Some desc ->
  exists issues,
    analyze_mdx_file w file_path = inr issues /\
    ((exists issue,
        In issue issues /\
        startswith issue (lit "Incorrect description format") = true) <->
     startswith desc (lit "Follow these steps to connect") = false).
Proof.
  intros Hr Hf Ht Hd. eexists. split.
  - rewrite (analyze_readable _ _ Hr), check_content_unfold.
    rewrite (check_frontmatter_titled _ Hf Ht Hd), desc_test.
    cbn [l_title_match l_issues]. reflexivity.
  - fold desc_prefix. split.
    + intros [i [Hin Hs]]. apply in_app_iff in Hin.
      destruct Hin as [Hin | Hin].
      * apply in_issue_if in Hin. destruct Hin as [Hb _].
        now apply negb_true_iff in Hb.
      * apply in_later_issues in Hin.
        destruct Hin as [[_ ->] | [[_ ->] | [[_ ->] | [[_ ->] |
          [[p [_ [_ ->]]] | [[_ ->] | [_ ->]]]]]]]; differ Hs.
    + intros Hp. rewrite Hp.
      exists (incorrect_desc_issue (expected_desc_of title) desc). split.
      * apply in_app_iff. left. now left.
      * reflexivity.
Qed.

Lemma description_judged_by_prefix_witness :
  exists issues,
    analyze_mdx_file (readable other_title_guide) guide_path = inr issues /\
    ((exists issue,
        In issue issues /\
        startswith issue (lit "Incorrect description format") = true) <->
     startswith (lit "Follow these steps to connect Globex")
                (lit "Follow these steps to connect") = false).
Proof.
  apply (description_judged_by_prefix (readable other_title_guide) guide_path
           (content := other_title_guide)
           (frontmatter := lit "title: 'Acme'" ++ nl ++
                           lit "description: 'Follow these steps to connect Globex'")
           (title := lit "Acme"));
    reflexivity.
Defined.

Lemma returned_eq {A} (a b : A) : @inr exn A a = inr b -> a = b.
Proof. intros H. now injection H. Qed.

(** X8. Whenever the checker returns on a text, the recommended issue
    of the useful links is among the issues exactly when the heading
    does not occur in the text; without the heading no text is
    compliant. *)
Theorem useful_links_issue_iff
    (w : world) (file_path : path) (content : str) (issues : list str) :
  read w file_path = inl content ->
  analyze_mdx_file w file_path = inr issues ->
  (In (lit "Missing 'Useful Links' section (recommended)") issues <->
   ~ occurs_in (lit "## Useful Links") content) /\
  (~ occurs_in (lit "## Useful Links") content -> issues <> []).
Proof.
  intros Hr Ha.
  assert (Hiff : In (lit "Missing 'Useful Links' section (recommended)") issues <->
                 ~ occurs_in (lit "## Useful Links") content).
  { rewrite <- str_in_false.
    destruct (analyze_cases _ _ Hr) as
      [[Hf E] | [fm [Hf [[d [Ht [Hd E]]] | [[Ht [Hd E]] | [[t [Ht [Hd E]]] |
       [t [d [Ht [Hd E]]]]]]]]]]; rewrite E in Ha; try discriminate;
      apply returned_eq in Ha; subst issues; rewrite in_app_iff, in_later_issues; split;
      try (intros Hu; right; repeat right; now split).
    - intros [[H | [H | []]] | H]; try differ H.
      destruct H as [[_ H] | [[_ H] | [[_ H] | [[_ H] |
        [[p [_ [_ H]]] | [[_ H] | [H _]]]]]]]; try differ H. exact H.
    - intros [[H | []] | H]; try differ H.
      destruct H as [[_ H] | [[_ H] | [[_ H] | [[_ H] |
        [[p [_ [_ H]]] | [[_ H] | [H _]]]]]]]; try differ H. exact H.
    - intros [H | H].
      + apply in_issue_if in H. destruct H as [_ H]. differ H.
      + destruct H as [[_ H] | [[_ H] | [[_ H] | [[_ H] |
          [[p [_ [_ H]]] | [[_ H] | [H _]]]]]]]; try differ H. exact H. }
  split; [exact Hiff|].
  intros Hu Hnil. apply Hiff in Hu. rewrite Hnil in Hu. exact Hu.
Qed.

Lemma useful_links_issue_iff_witness :
  (In (lit "Missing 'Useful Links' section (recommended)")
      [lit "Missing 'Useful Links' section (recommended)"] <->
   ~ occurs_in (lit "## Useful Links") acme_guide) /\
  (~ occurs_in (lit "## Useful Links") acme_guide ->
   [lit "Missing 'Useful Links' section (recommended)"] <> []).
Proof.
  apply (useful_links_issue_iff (readable acme_guide) guide_path
           (content := acme_guide)); reflexivity.
Defined.

(** X9. Whenever the checker returns on a text, it reports a missing
    linking section exactly when a title is found and neither the
    heading of that title nor one of the four general headings occurs
    in the text; the issue then names the title.  A text without a
    title never gets this issue. *)
Theorem linking_issue_iff
    (w : world) (file_path : path) (content : str) (issues : list str) :
  read w file_path = inl content ->
  analyze_mdx_file w file_path = inr issues ->
  ((exists issue,
      In issue issues /\
      startswith issue (lit "Missing 'Linking your ") = true) <->
   (exists frontmatter title,
      re_match frontmatter_re content = Some frontmatter /\
      re_search (field_re (lit "title")) frontmatter = Some title /\
      ~ occurs_in (lit "## Linking your " ++ title ++ lit " Account") content /\
      ~ occurs_in (lit "## Linking your Account") content /\
      ~ occurs_in (lit "## Connecting to StackOne") content /\
      ~ occurs_in (lit "## Connect with StackOne") content /\
      ~ occurs_in (lit "## Connecting with StackOne") content)) /\
  (forall frontmatter title,
     re_match frontmatter_re content = Some frontmatter ->
     re_search (field_re (lit "title")) frontmatter = Some title ->
     (In (lit "Missing 'Linking your " ++ title ++ lit " Account' section") issues <->
      ~ occurs_in (lit "## Linking your " ++ title ++ lit " Account") content /\
      ~ occurs_in (lit "## Linking your Account") content /\
      ~ occurs_in (lit "## Connecting to StackOne") content /\
      ~ occurs_in (lit "## Connect with StackOne") content /\
      ~ occurs_in (lit "## Connecting with StackOne") content)).
Proof.
  intros Hr Ha.
  assert (Hlater : forall tm i,
    In i (later_issues content tm) ->
    startswith i (lit "Missing 'Linking your ") = true ->
    exists t, tm = Some t /\ i = missing_linking_issue t /\
      ~ occurs_in (lit "## Linking your " ++ t ++ lit " Account") content /\
      ~ occurs_in (lit "## Linking your Account") content /\
      ~ occurs_in (lit "## Connecting to StackOne") content /\
      ~ occurs_in (lit "## Connect with StackOne") content /\
      ~ occurs_in (lit "## Connecting with StackOne") content).
  { intros tm i Hin Hs. apply in_later_issues in Hin.
    destruct Hin as [[_ ->] | [[_ ->] | [[_ ->] | [[_ ->] |
      [[p [E [H ->]]] | [[_ ->] | [_ ->]]]]]]]; try differ Hs.
    exists p. rewrite <- !str_in_false. tauto. }
  assert (Hthere : forall t,
    ~ occurs_in (lit "## Linking your " ++ t ++ lit " Account") content /\
    ~ occurs_in (lit "## Linking your Account") content /\
    ~ occurs_in (lit "## Connecting to StackOne") content /\
    ~ occurs_in (lit "## Connect with StackOne") content /\
    ~ occurs_in (lit "## Connecting with StackOne") content ->
    In (missing_linking_issue t) (later_issues content (Some t))).
  { intros t Hn. rewrite <- !str_in_false in Hn. apply in_later_issues.
    do 4 right. left. exists t. tauto. }
  assert (Hstart : forall t,
    startswith (missing_linking_issue t) (lit "Missing 'Linking your ") = true).
  { intros t. reflexivity. }
  (* what the issues are when a title [t] is found *)
  assert (Htitled : forall pre t,
    issues = pre ++ later_issues content (Some t) ->
    (forall i, In i pre -> startswith i (lit "Missing 'Linking your ") = false) ->
    ((exists i, In i issues /\
                startswith i (lit "Missing 'Linking your ") = true) <->
     In (missing_linking_issue t) issues) /\
    (In (missing_linking_issue t) issues <->
     ~ occurs_in (lit "## Linking your " ++ t ++ lit " Account") content /\
     ~ occurs_in (lit "## Linking your Account") content /\
     ~ occurs_in (lit "## Connecting to StackOne") content /\
     ~ occurs_in (lit "## Connect with StackOne") content /\
     ~ occurs_in (lit "## Connecting with StackOne") content)).
  { intros pre t -> Hpre. split; split.
    - intros [i [Hin Hs]]. apply in_app_iff in Hin. destruct Hin as [Hin | Hin].
      + rewrite (Hpre _ Hin) in Hs. discriminate.
      + destruct (Hlater _ _ Hin Hs) as [t' [Et [-> _]]]. injection Et as <-.
        apply in_app_iff. now right.
    - intros Hin. exists (missing_linking_issue t). now split.
    - intros Hin. apply in_app_iff in Hin. destruct Hin as [Hin | Hin].
      + pose proof (Hstart t) as Hs. rewrite (Hpre _ Hin) in Hs. discriminate.
      + destruct (Hlater _ _ Hin (Hstart t)) as [t' [Et [_ Hn]]].
        injection Et as <-. exact Hn.
    - intros Hn. apply in_app_iff. right. now apply Hthere. }
  destruct (analyze_cases _ _ Hr) as
    [[Hf E] | [fm [Hf [[d [Ht [Hd E]]] | [[Ht [Hd E]] | [[t [Ht [Hd E]]] |
     [t [d [Ht [Hd E]]]]]]]]]]; rewrite E in Ha; try discriminate;
    apply returned_eq in Ha.
  - (* no title, no description *)
    split.
    + split.
      * intros [i [Hin Hs]]. subst issues. apply in_app_iff in Hin.
        destruct Hin as [Hin | Hin].
        -- destruct Hin as [<- | [<- | []]]; differ Hs.
        -- destruct (Hlater _ _ Hin Hs) as [t [Et _]]. discriminate.
      * intros [fm' [t [Hf' [Ht' _]]]]. rewrite Hf in Hf'. injection Hf' as <-.
        rewrite Ht in Ht'. discriminate.
    + intros fm' t Hf' Ht'. rewrite Hf in Hf'. injection Hf' as <-.
      rewrite Ht in Ht'. discriminate.
  - (* a title, no description *)
    destruct (Htitled [lit "Missing description"] t (eq_sym Ha)) as [H1 H2].
    { intros i [<- | []]. reflexivity. }
    split.
    + rewrite H1, H2. split.
      * intros Hn. now exists fm, t.
      * intros [fm' [t' [Hf' [Ht' Hn]]]]. rewrite Hf in Hf'. injection Hf' as <-.
        rewrite Ht in Ht'. injection Ht' as <-. exact Hn.
    + intros fm' t' Hf' Ht'. rewrite Hf in Hf'. injection Hf' as <-.
      rewrite Ht in Ht'. injection Ht' as <-. exact H2.
  - (* a title and a description *)
    destruct (Htitled
                (issue_if (negb (startswith d desc_prefix))
                          (incorrect_desc_issue (expected_desc_of t) d))
                t (eq_sym Ha)) as [H1 H2].
    { intros i Hin. apply in_issue_if in Hin. destruct Hin as [_ ->].
      reflexivity. }
    split.
    + rewrite H1, H2. split.
      * intros Hn. now exists fm, t.
      * intros [fm' [t' [Hf' [Ht' Hn]]]]. rewrite Hf in Hf'. injection Hf' as <-.
        rewrite Ht in Ht'. injection Ht' as <-. exact Hn.
    + intros fm' t' Hf' Ht'. rewrite Hf in Hf'. injection Hf' as <-.
      rewrite Ht in Ht'. injection Ht' as <-. exact H2.
Qed.

Lemma linking_issue_iff_witness :
  ((exists issue,
      In issue
        [lit "Incorrect description format. Expected: 'Follow these steps to connect Acme via the StackOne Hub successfully.', Got: 'Connect Acme'";
                lit "Missing IntegrationFooter import";
                lit "Missing Warning section";
                lit "Missing Steps component";
                lit "Missing IntegrationFooter component";
                lit "Missing 'Linking your Acme Account' section";
                lit "Missing 'Useful Links' section (recommended)"] /\
      startswith issue (lit "Missing 'Linking your ") = true) <->
   (exists frontmatter title,
      re_match frontmatter_re bad_desc_guide = Some frontmatter /\
      re_search (field_re (lit "title")) frontmatter = Some title /\
      ~ occurs_in (lit "## Linking your " ++ title ++ lit " Account") bad_desc_guide /\
      ~ occurs_in (lit "## Linking your Account") bad_desc_guide /\
      ~ occurs_in (lit "## Connecting to StackOne") bad_desc_guide /\
      ~ occurs_in (lit "## Connect with StackOne") bad_desc_guide /\
      ~ occurs_in (lit "## Connecting with StackOne") bad_desc_guide)) /\
  (forall frontmatter title,
     re_match frontmatter_re bad_desc_guide = Some frontmatter ->
     re_search (field_re (lit "title")) frontmatter = Some title ->
     (In (lit "Missing 'Linking your " ++ title ++ lit " Account' section")
         [lit "Incorrect description format. Expected: 'Follow these steps to connect Acme via the StackOne Hub successfully.', Got: 'Connect Acme'";
          lit "Missing IntegrationFooter import";
          lit "Missing Warning section";
          lit "Missing Steps component";
          lit "Missing IntegrationFooter component";
          lit "Missing 'Linking your Acme Account' section";
          lit "Missing 'Useful Links' section (recommended)"] <->
      ~ occurs_in (lit "## Linking your " ++ title ++ lit " Account") bad_desc_guide /\
      ~ occurs_in (lit "## Linking your Account") bad_desc_guide /\
      ~ occurs_in (lit "## Connecting to StackOne") bad_desc_guide /\
      ~ occurs_in (lit "## Connect with StackOne") bad_desc_guide /\
      ~ occurs_in (lit "## Connecting with StackOne") bad_desc_guide)).
Proof.
  apply (linking_issue_iff (readable bad_desc_guide) guide_path
           (content := bad_desc_guide)); reflexivity.
Defined.

(** * Further properties: the candidates and the run *)

Lemma endswith_spec (s p : str) : endswith s p = true <-> exists a, s = a ++ p.
Proof.
  unfold endswith. rewrite startswith_spec. split.
  - intros [t H]. exists (rev t).
    rewrite <- (rev_involutive s), H, rev_app_distr, rev_involutive. reflexivity.
  - intros [a ->]. exists (rev a). apply rev_app_distr.
Qed.

(** X10. The candidates are the files below the top directory, at any
    depth, whose name ends with the extension and is not the name of
    the introduction; each is the path of the top directory, the
    directory and the name. *)
Theorem candidates_spec (w : world) (file_path : path) :
  In file_path (mdx_files w) <->
  (exists root files file,
     In (root, files) (walk w) /\ In file files /\
     (exists stem, file = stem ++ lit ".mdx") /\
     file <> lit "introduction.mdx" /\
     file_path =
       [lit "home"; lit "runner"; lit "work"; lit "hub-docs"; lit "hub-docs";
        lit "connection-guides"] ++ root ++ [file]).
Proof.
  unfold mdx_files. rewrite in_flat_map. split.
  - intros [[root files] [Hw Hin]]. apply in_map_iff in Hin.
    destruct Hin as [file [<- Hf]]. apply filter_In in Hf.
    destruct Hf as [Hf Hc]. unfold is_candidate in Hc.
    apply andb_true_iff in Hc. destruct Hc as [He Hn].
    apply endswith_spec in He. apply negb_true_iff, str_eqb_neq in Hn.
    exists root, files, file. auto.
  - intros [root [files [file [Hw [Hf [He [Hn ->]]]]]]].
    exists (root, files). split; [exact Hw|].
    apply in_map_iff. exists file. split; [reflexivity|].
    apply filter_In. split; [exact Hf|]. unfold is_candidate.
    apply andb_true_iff. split.
    + now apply endswith_spec.
    + now apply negb_true_iff, str_eqb_neq.
Qed.

Lemma analyze_unreadable (w : world) (file_path : path) (e : str) :
  read w file_path = inr e ->
  analyze_mdx_file w file_path = inr [lit "Could not read file: " ++ e].
Proof. intros Hr. unfold analyze_mdx_file. now rewrite Hr. Qed.

Lemma classify_all_abort (w : world) (files : list path) (r : report) (e : exn) :
  (forall f, In f files -> In f (mdx_files w)) ->
  classify_all w r files = inl e ->
  exists f,
    In f files /\ is_simple_connect_guide w f = false /\
    analyze_mdx_file w f = inl e.
Proof.
  revert r. induction files as [|f files IH]; intros r Hc; cbn [classify_all];
    [discriminate|].
  destruct (classify w r f) as [e1|r1] eqn:E1.
  - intros E. injection E as ->. unfold classify in E1.
    destruct (candidate_relative w f (Hc f (or_introl eq_refl)))
      as [rel [Hrel _]].
    rewrite Hrel in E1.
    destruct (is_simple_connect_guide w f) eqn:Es; [discriminate|].
    destruct (analyze_mdx_file w f) as [e2|[|i issues]] eqn:Ea; try discriminate.
    injection E1 as ->. exists f. split; [now left | now split].
  - intros E. destruct (IH r1 (fun g Hg => Hc g (or_intror Hg)) E)
      as [g [Hg Hr]].
    exists g. split; [now right | exact Hr].
Qed.

(** X11. A run is aborted by nothing but the checker: the exception of
    [main] is the one the checker raises on a candidate that can be
    read and is not simple, an unbound [title_match] or an unbound
    [title]; the paths never make [relative_to] fail. *)
Theorem run_aborts_only_in_checker (w : world) (e : exn) :
  main w = inl e ->
  (e = UnboundLocalError "title_match" \/ e = UnboundLocalError "title") /\
  exists file_path content,
    In file_path (mdx_files w) /\
    read w file_path = inl content /\
    is_simple_connect_guide w file_path = false /\
    analyze_mdx_file w file_path = inl e.
Proof.
  unfold main. intros E.
  apply classify_all_abort in E; [|intros f Hf; now apply sorted_in].
  destruct E as [f [Hf [Hs Ha]]]. apply (proj1 (sorted_in _ _)) in Hf.
  destruct (read w f) as [content|msg] eqn:Hr.
  - split; [|exists f, content; repeat split; assumption].
    destruct (analyze_cases _ _ Hr) as
      [[_ E] | [fm [_ [[d [_ [_ E]]] | [[_ [_ E]] | [[t [_ [_ E]]] |
       [t [d [_ [_ E]]]]]]]]]]; rewrite E in Ha; try discriminate;
      injection Ha as <-; auto.
  - rewrite (analyze_unreadable _ _ Hr) in Ha. discriminate.
Qed.

Lemma run_aborts_only_in_checker_witness :
  (UnboundLocalError "title_match" = UnboundLocalError "title_match" \/
   UnboundLocalError "title_match" = UnboundLocalError "title") /\
  exists file_path content,
    In file_path (mdx_files (readable no_frontmatter_guide)) /\
    read (readable no_frontmatter_guide) file_path = inl content /\
    is_simple_connect_guide (readable no_frontmatter_guide) file_path = false /\
    analyze_mdx_file (readable no_frontmatter_guide) file_path =
    inl (UnboundLocalError "title_match").
Proof.
  apply (run_aborts_only_in_checker (readable no_frontmatter_guide)).
  reflexivity.
Defined.

Lemma classify_all_checked (w : world) (files : list path) (r r' : report) :
  classify_all w r files = inr r' ->
  forall f, In f files -> is_simple_connect_guide w f = false ->
            exists issues, analyze_mdx_file w f = inr issues.
Proof.
  revert r. induction files as [|f files IH]; intros r; cbn [classify_all];
    [intros _ g []|].
  destruct (classify w r f) as [e1|r1] eqn:E1; [discriminate|].
  intros E g [<- | Hg] Hs; [|exact (IH _ E g Hg Hs)].
  unfold classify in E1.
  destruct (relative_to f repo_root); [|discriminate].
  rewrite Hs in E1.
  destruct (analyze_mdx_file w f) as [e2|issues]; [discriminate|].
  now exists issues.
Qed.

(** X12. A run ends with a report exactly when the checker returns on
    every candidate that is not simple; what the checker does on a
    simple candidate does not matter. *)
Theorem run_completes_iff (w : world) :
  (exists r, main w = inr r) <->
  (forall file_path,
     In file_path (mdx_files w) ->
     is_simple_connect_guide w file_path = false ->
     exists issues, analyze_mdx_file w file_path = inr issues).
Proof.
  split.
  - intros [r E] f Hf Hs. unfold main in E.
    eapply classify_all_checked; [exact E | now apply sorted_in | exact Hs].
  - apply main_returns.
Qed.

Lemma classify_all_buckets (w : world) (files : list path) (r r' : report) :
  classify_all w r files = inr r' ->
  r' = Report
         (simple_connect_guides r ++
          map reported_as (filter (in_excluded w) files))
         (compliant_files r ++
          map reported_as (filter (in_compliant w) files))
         (non_compliant_files r ++
          map (entry_of w) (filter (in_non_compliant w) files)).
Proof.
  revert r. induction files as [|f files IH]; intros r; cbn [classify_all].
  - intros E. apply returned_eq in E. subst r'. cbn [filter map].
    rewrite !app_nil_r. now destruct r.
  - destruct (classify w r f) as [e1|r1] eqn:E1; [discriminate|].
    intros E. rewrite (IH _ E). clear IH E.
    unfold classify in E1. cbn [filter].
    unfold in_excluded at 2, in_compliant at 2, in_non_compliant at 2.
    assert (Hrel : forall rel, relative_to f repo_root = Some rel ->
                               reported_as f = str_of_path rel).
    { intros rel H. unfold reported_as. now rewrite H. }
    assert (Hentry : forall l, analyze_mdx_file w f = inr l ->
                                entry_of w f = FileInfo (reported_as f) l).
    { intros l H. unfold entry_of. now rewrite H. }
    destruct (relative_to f repo_root) as [rel|]; [|discriminate].
    specialize (Hrel rel eq_refl).
    destruct (is_simple_connect_guide w f).
    + apply returned_eq in E1. subst r1.
      cbn [negb andb map simple_connect_guides compliant_files
           non_compliant_files].
      now rewrite Hrel, <- app_assoc.
    + destruct (analyze_mdx_file w f) as [e2|[|i issues]];
        [discriminate| |]; apply returned_eq in E1; subst r1;
        cbn [negb andb map simple_connect_guides compliant_files
             non_compliant_files].
      * now rewrite Hrel, <- app_assoc.
      * now rewrite (Hentry _ eq_refl), Hrel, <- app_assoc.
Qed.

(** X13. In the report of a run that ends, the excluded bucket holds
    the simple candidates, the compliant bucket the candidates that
    are not simple and for which the checker returns no issue, and the
    non-compliant bucket the candidates that are not simple and for
    which it returns issues, each with exactly those issues; all in
    the order of the sorted paths. *)
Theorem report_buckets (w : world) (r : report) :
  main w = inr r ->
  simple_connect_guides r =
    map reported_as (filter (in_excluded w) (sorted (mdx_files w))) /\
  compliant_files r =
    map reported_as (filter (in_compliant w) (sorted (mdx_files w))) /\
  non_compliant_files r =
    map (entry_of w) (filter (in_non_compliant w) (sorted (mdx_files w))).
Proof.
  unfold main. intros E. apply classify_all_buckets in E. subst r.
  cbn [simple_connect_guides compliant_files non_compliant_files app]. auto.
Qed.

Lemma report_buckets_witness :
  simple_connect_guides sample_report =
    map reported_as (filter (in_excluded sample_world)
                            (sorted (mdx_files sample_world))) /\
  compliant_files sample_report =
    map reported_as (filter (in_compliant sample_world)
                            (sorted (mdx_files sample_world))) /\
  non_compliant_files sample_report =
    map (entry_of sample_world)
        (filter (in_non_compliant sample_world)
                (sorted (mdx_files sample_world))).
Proof.
  apply (report_buckets sample_world
           (r := sample_report)).
  vm_compute. reflexivity.
Defined.

(** X14. In a run that ends, every candidate is reported once: the
    paths of the three buckets together are the paths of the
    candidates, each as often; the number of candidates is the sum of
    the sizes of the buckets; and no path is in two buckets, or twice
    in one, when no two candidates are reported under the same path. *)
Theorem completed_run_partitions (w : world) (r : report) :
  main w = inr r ->
  Permutation
    (simple_connect_guides r ++ compliant_files r ++
     map fi_path (non_compliant_files r))
    (map reported_as (mdx_files w)) /\
  List.length (mdx_files w) =
    List.length (simple_connect_guides r) + List.length (compliant_files r) +
    List.length (non_compliant_files r) /\
  (NoDup (map reported_as (mdx_files w)) ->
   NoDup (simple_connect_guides r ++ compliant_files r ++
          map fi_path (non_compliant_files r))).
Proof.
  intros E. pose proof (main_partition _ E) as Hp.
  unfold report_paths in Hp. split; [exact Hp|]. split.
  - apply Permutation_length in Hp.
    rewrite !length_app, !length_map in Hp. lia.
  - now apply main_disjoint.
Qed.

Lemma completed_run_partitions_witness :
  Permutation
    (simple_connect_guides sample_report ++ compliant_files sample_report ++
     map fi_path (non_compliant_files sample_report))
    (map reported_as (mdx_files sample_world)) /\
  List.length (mdx_files sample_world) =
    List.length (simple_connect_guides sample_report) +
    List.length (compliant_files sample_report) +
    List.length (non_compliant_files sample_report) /\
  (NoDup (map reported_as (mdx_files sample_world)) ->
   NoDup (simple_connect_guides sample_report ++ compliant_files sample_report ++
          map fi_path (non_compliant_files sample_report))).
Proof.
  apply (completed_run_partitions sample_world (r := sample_report)).
  vm_compute. reflexivity.
Defined.

(** X15. When the run ends, the number of files in the first line of
    the output and the total of the summary are the sum of the three
    numbers that the summary gives for the buckets. *)
Theorem stdout_totals_add_up (w : world) (r : report) :
  main w = inr r ->
  let s := List.length (simple_connect_guides r) in
  let c := List.length (compliant_files r) in
  let k := List.length (non_compliant_files r) in
  main_stdout w =
    print (lit "Found " ++ str_of_nat (s + c + k) ++
           lit " MDX files to analyze." ++ nl) ++
    print_results r ++
    print (nl ++ lit "=== SUMMARY ===") ++
    print (lit "Total files analyzed: " ++ str_of_nat (s + c + k)) ++
    print (lit "Simple connect guides (excluded): " ++ str_of_nat s) ++
    print (lit "Compliant files: " ++ str_of_nat c) ++
    print (lit "Files needing updates: " ++ str_of_nat k).
Proof.
  intros E s c k. unfold main_stdout. rewrite E.
  assert (Hn : List.length (mdx_files w) = s + c + k).
  { pose proof (main_partition _ E) as Hp. apply Permutation_length in Hp.
    unfold report_paths in Hp. rewrite !length_app, !length_map in Hp.
    subst s c k. lia. }
  rewrite Hn. reflexivity.
Qed.

Lemma stdout_totals_add_up_witness :
  main_stdout (readable acme_guide) =
    print (lit "Found " ++ str_of_nat (0 + 0 + 1) ++
           lit " MDX files to analyze." ++ nl) ++
    print_results
      (Report [] []
         [FileInfo (lit "connection-guides/guide.mdx")
            [lit "Missing 'Useful Links' section (recommended)"]]) ++
    print (nl ++ lit "=== SUMMARY ===") ++
    print (lit "Total files analyzed: " ++ str_of_nat (0 + 0 + 1)) ++
    print (lit "Simple connect guides (excluded): " ++ str_of_nat 0) ++
    print (lit "Compliant files: " ++ str_of_nat 0) ++
    print (lit "Files needing updates: " ++ str_of_nat 1).
Proof.
  apply (stdout_totals_add_up (readable acme_guide)
           (r := Report [] []
                   [FileInfo (lit "connection-guides/guide.mdx")
                      [lit "Missing 'Useful Links' section (recommended)"]])).
  reflexivity.
Defined.

(** * Further properties: the order of the report *)

Lemma str_ltb_irrefl (a : str) : str_ltb a a = false.
Proof.
  induction a as [|c a IH]; [reflexivity|]. cbn [str_ltb].
  now rewrite N.ltb_irrefl, N.eqb_refl, IH.
Qed.

Lemma str_ltb_trans (a b c : str) :
  str_ltb a b = true -> str_ltb b c = true -> str_ltb a c = true.
Proof.
  revert b c. induction a as [|x a IH]; intros [|y b] [|z c];
    cbn [str_ltb]; try discriminate; try reflexivity.
  rewrite !orb_true_iff, !andb_true_iff, !N.ltb_lt, !N.eqb_eq.
  intros [H1 | [H1 H1']] [H2 | [H2 H2']].
  - left. lia.
  - left. lia.
  - left. lia.
  - right. split; [lia | now apply (IH b c)].
Qed.

Lemma path_ltb_irrefl (a : path) : path_ltb a a = false.
Proof.
  induction a as [|x a IH]; [reflexivity|]. cbn [path_ltb].
  now rewrite str_ltb_irrefl, str_eqb_refl, IH.
Qed.

Lemma path_ltb_trans (a b c : path) :
  path_ltb a b = true -> path_ltb b c = true -> path_ltb a c = true.
Proof.
  revert b c. induction a as [|x a IH]; intros [|y b] [|z c];
    cbn [path_ltb]; try discriminate; try reflexivity.
  rewrite !orb_true_iff, !andb_true_iff, !str_eqb_eq.
  intros [H1 | [H1 H1']] [H2 | [H2 H2']].
  - left. now apply (str_ltb_trans x y z).
  - left. now subst z.
  - left. now subst y.
  - right. split; [congruence | now apply (IH b c)].
Qed.

Lemma path_ltb_asym (a b : path) : path_ltb a b = true -> path_ltb b a = false.
Proof.
  intros H. destruct (path_ltb b a) eqn:E; [|reflexivity].
  pose proof (path_ltb_trans _ _ _ H E) as Ht.
  rewrite path_ltb_irrefl in Ht. discriminate.
Qed.

Lemma insert_sorted (x : path) (l : list path) :
  StronglySorted path_le l -> StronglySorted path_le (insert x l).
Proof.
  induction l as [|y l IH]; intros Hs; cbn [insert].
  - repeat constructor.
  - destruct (path_ltb x y) eqn:E.
    + constructor; [exact Hs|]. constructor.
      * now apply path_ltb_asym.
      * apply StronglySorted_inv in Hs. destruct Hs as [_ Hy].
        apply Forall_forall. intros z Hz.
        rewrite Forall_forall in Hy. specialize (Hy z Hz).
        unfold path_le in *. destruct (path_ltb z x) eqn:Ez; [|reflexivity].
        rewrite (path_ltb_trans _ _ _ Ez E) in Hy. discriminate.
    + apply StronglySorted_inv in Hs. destruct Hs as [Hs Hy].
      constructor; [now apply IH|].
      eapply Permutation_Forall; [symmetry; apply insert_perm|].
      constructor; [exact E | exact Hy].
Qed.

Lemma sorted_ordered (l : list path) : StronglySorted path_le (sorted l).
Proof.
  unfold sorted.
  assert (H : forall acc, StronglySorted path_le acc ->
                          StronglySorted path_le
                            (fold_left (fun a x => insert x a) l acc)).
  { induction l as [|x l IH]; intros acc Ha; cbn [fold_left]; [exact Ha|].
    apply IH. now apply insert_sorted. }
  apply H. constructor.
Qed.

Lemma filter_ordered (f : path -> bool) (l : list path) :
  StronglySorted path_le l -> StronglySorted path_le (filter f l).
Proof.
  induction l as [|x l IH]; intros Hs; cbn [filter]; [constructor|].
  apply StronglySorted_inv in Hs. destruct Hs as [Hs Hx].
  destruct (f x); [|now apply IH].
  constructor; [now apply IH|].
  apply Forall_forall. intros z Hz. apply filter_In in Hz.
  rewrite Forall_forall in Hx. now apply Hx.
Qed.

(** X16. The report of a run that ends lists the files of each bucket
    in the order of their paths, compared name by name from the top
    directory: in no bucket does a candidate come before a candidate
    whose path is smaller. *)
Theorem buckets_in_path_order (w : world) (r : report) :
  main w = inr r ->
  exists excluded compliant non_compliant,
    simple_connect_guides r = map reported_as excluded /\
    compliant_files r = map reported_as compliant /\
    map fi_path (non_compliant_files r) = map reported_as non_compliant /\
    incl (excluded ++ compliant ++ non_compliant) (mdx_files w) /\
    StronglySorted (fun a b => path_ltb b a = false) excluded /\
    StronglySorted (fun a b => path_ltb b a = false) compliant /\
    StronglySorted (fun a b => path_ltb b a = false) non_compliant.
Proof.
  intros E. unfold main in E. apply classify_all_buckets in E. subst r.
  cbn [simple_connect_guides compliant_files non_compliant_files app].
  exists (filter (in_excluded w) (sorted (mdx_files w))),
         (filter (in_compliant w) (sorted (mdx_files w))),
         (filter (in_non_compliant w) (sorted (mdx_files w))).
  split; [reflexivity|]. split; [reflexivity|]. split.
  { rewrite map_map. reflexivity. }
  split.
  { intros f Hf. rewrite !in_app_iff, !filter_In in Hf.
    apply (proj1 (sorted_in _ _)). tauto. }
  repeat split; apply filter_ordered, sorted_ordered.
Qed.

Lemma buckets_in_path_order_witness :
  exists excluded compliant non_compliant,
    simple_connect_guides sample_report = map reported_as excluded /\
    compliant_files sample_report = map reported_as compliant /\
    map fi_path (non_compliant_files sample_report) =
      map reported_as non_compliant /\
    incl (excluded ++ compliant ++ non_compliant) (mdx_files sample_world) /\
    StronglySorted (fun a b => path_ltb b a = false) excluded /\
    StronglySorted (fun a b => path_ltb b a = false) compliant /\
    StronglySorted (fun a b => path_ltb b a = false) non_compliant.
Proof.
  apply (buckets_in_path_order sample_world
           (r := sample_report)).
  vm_compute. reflexivity.
Defined.

(** * Further properties: bounds and reported paths *)

Lemma issue_if_length (b : bool) (msg : str) : List.length (issue_if b msg) <= 1.
Proof. destruct b; cbn; lia. Qed.

Lemma later_issues_length (content : str) (tm : option str) :
  List.length (later_issues content tm) <=
  match tm with Some _ => 7 | None => 6 end.
Proof.
  unfold later_issues. destruct tm; rewrite !length_app.
  all: repeat match goal with
         | |- context [List.length (issue_if ?b ?m)] =>
             let H := fresh "L" in
             pose proof (issue_if_length b m) as H;
             generalize dependent (List.length (issue_if b m)); intros
         end.
  all: cbn [List.length]; lia.
Qed.

(** X17. The checker never returns more than eight issues: the issue of
    the title and the issue of the linking section exclude each other,
    and so do the two issues of the description. *)
Theorem at_most_eight_issues (w : world) (file_path : path) (issues : list str) :
  analyze_mdx_file w file_path = inr issues ->
  List.length issues <= 8.
Proof.
  intros Ha. destruct (read w file_path) as [content|e] eqn:Hr.
  - destruct (analyze_cases _ _ Hr) as
      [[Hf E] | [fm [Hf [[d [Ht [Hd E]]] | [[Ht [Hd E]] | [[t [Ht [Hd E]]] |
       [t [d [Ht [Hd E]]]]]]]]]]; rewrite E in Ha; try discriminate;
      apply returned_eq in Ha; subst issues; rewrite length_app.
    + pose proof (later_issues_length content None).
      cbn [List.length] in *. lia.
    + pose proof (later_issues_length content (Some t)).
      cbn [List.length] in *. lia.
    + pose proof (later_issues_length content (Some t)).
      pose proof (issue_if_length (negb (startswith d desc_prefix))
                    (incorrect_desc_issue (expected_desc_of t) d)).
      cbn [List.length] in *. lia.
  - rewrite (analyze_unreadable _ _ Hr) in Ha. apply returned_eq in Ha.
    subst issues. cbn. lia.
Qed.

Lemma at_most_eight_issues_witness :
  List.length
    [lit "Missing or incorrectly formatted title";
     lit "Missing description";
     lit "Missing IntegrationFooter import";
     lit "Missing Warning section";
     lit "Missing Steps component";
     lit "Missing IntegrationFooter component";
     lit "Missing 'Available data' section";
     lit "Missing 'Useful Links' section (recommended)"] <= 8.
Proof.
  apply (at_most_eight_issues (readable bare_guide) guide_path).
  reflexivity.
Defined.

Lemma str_of_path_cons (x : str) (p : path) :
  p <> [] -> str_of_path (x :: p) = x ++ lit "/" ++ str_of_path p.
Proof. destruct p; [intros H; now elim H | reflexivity]. Qed.

(** X18. Every candidate is reported by its path from the root of the
    repository, the names joined by slashes: the name of the top
    directory, the names of the directories below it, and the name of
    the file; [relative_to] never fails on a candidate. *)
Theorem candidate_reported_path (w : world) (file_path : path) :
  In file_path (mdx_files w) ->
  exists root file,
    file_path = base_path ++ root ++ [file] /\
    relative_to file_path repo_root =
      Some (lit "connection-guides" :: root ++ [file]) /\
    reported_as file_path =
      lit "connection-guides/" ++ str_of_path (root ++ [file]).
Proof.
  intros H. apply candidate_below_top in H.
  destruct H as [root [files [file [_ [_ [_ ->]]]]]].
  exists root, file. split; [reflexivity|].
  assert (Hrel : relative_to (base_path ++ root ++ [file]) repo_root =
                 Some (lit "connection-guides" :: root ++ [file])).
  { unfold base_path. rewrite <- app_assoc. apply relative_to_app. }
  split; [exact Hrel|]. unfold reported_as. rewrite Hrel.
  rewrite str_of_path_cons; [|now destruct root].
  now rewrite app_assoc.
Qed.

Lemma candidate_reported_path_witness :
  exists root file,
    base_path ++ [lit "crm"; lit "short.mdx"] = base_path ++ root ++ [file] /\
    relative_to (base_path ++ [lit "crm"; lit "short.mdx"]) repo_root =
      Some (lit "connection-guides" :: root ++ [file]) /\
    reported_as (base_path ++ [lit "crm"; lit "short.mdx"]) =
      lit "connection-guides/" ++ str_of_path (root ++ [file]).
Proof.
  apply (candidate_reported_path sample_world). vm_compute. auto.
Defined.
